(** * The [debounce] invocation scheduler of [src/utils.js]

    A shallow embedding of the closure built by [debounce(func, wait, options)]
    and of the host timer table it talks to ([setTimeout] / [clearTimeout],
    [requestAnimationFrame] / [cancelAnimationFrame]).

    - The closed-over [let] variables ([lastArgs], [lastThis], [result],
      [timerId], [lastCallTime], [lastInvokeTime]) are the fields of [State];
      the variables that are fixed once the constructor has run ([wait],
      [timeToWait], [useRAF], [leading], [maxing], [maxWait], [trailing]) are
      the fields of [Config].
    - Numbers are integers ([Z]); [undefined] is [None]; a [NaN] produced by
      arithmetic on [undefined] is [None] as well.
    - Every inner function takes the state and returns the value it returns in
      JavaScript together with the new state.  [Date.now()] is an argument.
    - The host is part of the state: the table of outstanding wake-ups, the
      next handle to hand out, and the list of the calls made to [func]. *)

From Stdlib Require Import ZArith List Bool Lia String.
From Stdlib Require Import DecimalString Permutation.
Import ListNotations.
Local Open Scope Z_scope.

(** ** Host timers *)

(** An outstanding wake-up: its handle, the earliest instant at which the host
    may run it, and whether it is an animation-frame request. *)
Record Timer : Type := mkTimer {
  tm_id : nat;
  tm_due : Z;
  tm_frame : bool
}.

Definition drop_timer (id : nat) (l : list Timer) : list Timer :=
  filter (fun tm => negb (Nat.eqb (tm_id tm) id)) l.

Definition has_timer (id : nat) (l : list Timer) : bool :=
  existsb (fun tm => Nat.eqb (tm_id tm) id) l.

(** The wake-up the host runs next: the smallest due time, the older
    registration winning a tie. *)
Fixpoint earliest (l : list Timer) : option Timer :=
  match l with
  | [] => None
  | x :: r =>
      match earliest r with
      | None => Some x
      | Some y => if tm_due y <? tm_due x then Some y else Some x
      end
  end.

(** [Math.min] and [-] on numbers that may be [NaN]. *)
Definition js_sub (a b : option Z) : option Z :=
  match a, b with
  | Some x, Some y => Some (x - y)
  | _, _ => None
  end.

Definition js_min (a b : option Z) : option Z :=
  match a, b with
  | Some x, Some y => Some (Z.min x y)
  | _, _ => None
  end.

(** [a >= b] and [a < b]: false as soon as one side is [NaN]. *)
Definition js_ge (a b : option Z) : bool :=
  match a, b with
  | Some x, Some y => y <=? x
  | _, _ => false
  end.

Definition js_lt (a b : option Z) : bool :=
  match a, b with
  | Some x, Some y => x <? y
  | _, _ => false
  end.

(** The delay [setTimeout] really uses: [NaN] and negative delays are 0. *)
Definition timeout_delay (d : option Z) : Z :=
  match d with
  | Some x => Z.max 0 x
  | None => 0
  end.

Inductive Error : Type :=
| TypeError (msg : string).

Section Debounce.

Variables Val This Res : Type.

(** The first argument of [debounce]: a function, or any other value. *)
Inductive Target : Type :=
| Callable (f : option This -> list Val -> Res)
| NotCallable.

(** The [options] object.  [opt_maxWait] and [opt_trailing] are [None] when
    the key is not [in] the object; the inner [None] of [opt_maxWait] is a
    key that holds [undefined]. *)
Record Options : Type := mkOptions {
  opt_leading : option bool;
  opt_maxWait : option (option Z);
  opt_trailing : option bool
}.

Record Config : Type := mkConfig {
  func : option This -> list Val -> Res;
  wait : option Z;
  timeToWait : Z;
  useRAF : bool;
  leading : bool;
  maxing : bool;
  maxWait : option Z;
  trailing : bool
}.

(** One call of [func]: when, with which [this], with which arguments. *)
Record Invocation : Type := mkInvocation {
  inv_time : Z;
  inv_this : option This;
  inv_args : list Val
}.

Record State : Type := mkState {
  lastArgs : option (list Val);
  lastThis : option This;
  result : option Res;
  timerId : option nat;
  lastCallTime : option Z;
  lastInvokeTime : Z;
  (* host *)
  timers : list Timer;
  nextId : nat;
  invoked : list Invocation      (* newest first *)
}.

Definition set_lastArgs (v : option (list Val)) (s : State) : State :=
  let '(mkState a t r i lc li tm n l) := s in
  mkState v t r i lc li tm n l.
Definition set_lastThis (v : option This) (s : State) : State :=
  let '(mkState a t r i lc li tm n l) := s in
  mkState a v r i lc li tm n l.
Definition set_result (v : option Res) (s : State) : State :=
  let '(mkState a t r i lc li tm n l) := s in
  mkState a t v i lc li tm n l.
Definition set_timerId (v : option nat) (s : State) : State :=
  let '(mkState a t r i lc li tm n l) := s in
  mkState a t r v lc li tm n l.
Definition set_lastCallTime (v : option Z) (s : State) : State :=
  let '(mkState a t r i lc li tm n l) := s in
  mkState a t r i v li tm n l.
Definition set_lastInvokeTime (v : Z) (s : State) : State :=
  let '(mkState a t r i lc li tm n l) := s in
  mkState a t r i lc v tm n l.
Definition set_timers (v : list Timer) (s : State) : State :=
  let '(mkState a t r i lc li tm n l) := s in
  mkState a t r i lc li v n l.
Definition set_nextId (v : nat) (s : State) : State :=
  let '(mkState a t r i lc li tm n l) := s in
  mkState a t r i lc li tm v l.
Definition set_invoked (v : list Invocation) (s : State) : State :=
  let '(mkState a t r i lc li tm n l) := s in
  mkState a t r i lc li tm n v.

(** The closure variables as [debounce] declares them, on a host with no
    outstanding wake-up. *)
Definition init : State :=
  mkState None None None None None 0 [] 1%nat [].

(** *** The host API *)

Definition register (due : Z) (frame : bool) (s : State) : nat * State :=
  let id := nextId s in
  (id, set_nextId (S id)
         (set_timers (timers s ++ [mkTimer id due frame]) s)).

Definition setTimeout (now : Z) (delay : option Z) (s : State) : nat * State :=
  register (now + timeout_delay delay) false s.

Definition requestAnimationFrame (now : Z) (s : State) : nat * State :=
  register now true s.

Definition clearTimeout (id : option nat) (s : State) : State :=
  match id with
  | Some i => set_timers (drop_timer i (timers s)) s
  | None => s
  end.

Definition cancelAnimationFrame (id : option nat) (s : State) : State :=
  clearTimeout id s.

(** *** The constructor *)

Definition is_truthy (w : option Z) : bool :=
  match w with
  | Some x => negb (x =? 0)
  | None => false
  end.

Definition is_zero (w : option Z) : bool :=
  match w with
  | Some x => x =? 0
  | None => false
  end.

(** [+x || 0] *)
Definition to_number_or_0 (w : option Z) : Z :=
  match w with
  | Some x => x
  | None => 0
  end.

Definition debounce (f : Target) (wait_ : option Z) (options : option Options)
           (hasRAF : bool) : Error + Config * State :=
  let useRAF_ := negb (is_truthy wait_) && negb (is_zero wait_) && hasRAF in
  match f with
  | NotCallable => inl (TypeError "Expected a function")
  | Callable fn =>
      let timeToWait_ := to_number_or_0 wait_ in
      let c :=
        match options with
        | Some o =>
            let leading_ :=
              match opt_leading o with Some b => b | None => false end in
            let maxing_ :=
              match opt_maxWait o with Some _ => true | None => false end in
            let maxWait_ :=
              match opt_maxWait o with
              | Some m => Some (Z.max (to_number_or_0 m) timeToWait_)
              | None => None
              end in
            let trailing_ :=
              match opt_trailing o with Some b => b | None => true end in
            mkConfig fn wait_ timeToWait_ useRAF_ leading_ maxing_ maxWait_
                     trailing_
        | None => mkConfig fn wait_ timeToWait_ useRAF_ false false None true
        end in
      inr (c, init)
  end.

(** *** The inner functions *)

Section Closure.

Variable c : Config.

Definition invokeFunc (time : Z) (s : State) : option Res * State :=
  let args := lastArgs s in
  let thisArg := lastThis s in
  let s := set_lastArgs None s in
  let s := set_lastThis None s in
  let s := set_lastInvokeTime time s in
  let actual := match args with Some a => a | None => [] end in
  let r := func c thisArg actual in
  let s := set_invoked (mkInvocation time thisArg actual :: invoked s) s in
  let s := set_result (Some r) s in
  (result s, s).

Definition startTimer (now : Z) (waitFor : option Z) (s : State) : nat * State :=
  if useRAF c then
    let s := cancelAnimationFrame (timerId s) s in
    requestAnimationFrame now s
  else setTimeout now waitFor s.

Definition cancelTimer (id : nat) (s : State) : State :=
  if useRAF c then cancelAnimationFrame (Some id) s
  else clearTimeout (Some id) s.

Definition leadingEdge (time : Z) (s : State) : option Res * State :=
  let s := set_lastInvokeTime time s in
  let '(id, s) := startTimer time (Some (timeToWait c)) s in
  let s := set_timerId (Some id) s in
  if leading c then invokeFunc time s else (result s, s).

Definition remainingWait (time : Z) (s : State) : option Z :=
  let timeSinceLastCall := js_sub (Some time) (lastCallTime s) in
  let timeSinceLastInvoke := time - lastInvokeTime s in
  let timeWaiting := js_sub (wait c) timeSinceLastCall in
  if maxing c
  then js_min timeWaiting (js_sub (maxWait c) (Some timeSinceLastInvoke))
  else timeWaiting.

Definition shouldInvoke (time : Z) (s : State) : bool :=
  let timeSinceLastCall := js_sub (Some time) (lastCallTime s) in
  let timeSinceLastInvoke := time - lastInvokeTime s in
  match lastCallTime s with None => true | Some _ => false end
  || js_ge timeSinceLastCall (Some (timeToWait c))
  || js_lt timeSinceLastCall (Some 0)
  || (maxing c && js_ge (Some timeSinceLastInvoke) (maxWait c)).

Definition trailingEdge (time : Z) (s : State) : option Res * State :=
  let s := set_timerId None s in
  if trailing c && match lastArgs s with Some _ => true | None => false end
  then invokeFunc time s
  else
    let s := set_lastArgs None s in
    let s := set_lastThis None s in
    (result s, s).

(** [now] is what [Date.now()] returns inside the callback. *)
Definition timerExpired (now : Z) (s : State) : option Res * State :=
  let time := now in
  if shouldInvoke time s then trailingEdge time s
  else
    let '(id, s) := startTimer now (remainingWait time s) s in
    (None, set_timerId (Some id) s).

Definition cancel (s : State) : State :=
  let s := match timerId s with
           | Some id => cancelTimer id s
           | None => s
           end in
  let s := set_lastInvokeTime 0 s in
  let s := set_lastArgs None s in
  let s := set_lastCallTime None s in
  let s := set_lastThis None s in
  set_timerId None s.

Definition flush (now : Z) (s : State) : option Res * State :=
  match timerId s with
  | None => (result s, s)
  | Some _ => trailingEdge now s
  end.

Definition pending (s : State) : bool :=
  match timerId s with Some _ => true | None => false end.

Definition debounced (now : Z) (this : option This) (args : list Val)
           (s : State) : option Res * State :=
  let time := now in
  let isInvoking := shouldInvoke time s in
  let s := set_lastArgs (Some args) s in
  let s := set_lastThis this s in
  let s := set_lastCallTime (Some time) s in
  let fallthrough (s : State) :=
    match timerId s with
    | None =>
        let '(id, s) := startTimer now (Some (timeToWait c)) s in
        let s := set_timerId (Some id) s in
        (result s, s)
    | Some _ => (result s, s)
    end in
  if isInvoking then
    match timerId s with
    | None => leadingEdge time s
    | Some _ =>
        if maxing c then
          let '(id, s) := startTimer now (Some (timeToWait c)) s in
          let s := set_timerId (Some id) s in
          invokeFunc time s
        else fallthrough s
    end
  else fallthrough s.

(** *** The host running a wake-up

    The host takes the wake-up out of its table and calls [timerExpired],
    the only callback the closure ever registers. *)
Definition fire (now : Z) (id : nat) (s : State) : State :=
  if has_timer id (timers s)
  then snd (timerExpired now (set_timers (drop_timer id (timers s)) s))
  else s.

(** *** An event loop with exact timers

    [advance fuel t s] runs, each at its due time and earliest first, the
    wake-ups that are due at [t] or before.  A wake-up may register
    another one, hence the fuel; [None] is fuel exhausted. *)
Fixpoint advance (fuel : nat) (t : Z) (s : State) : option State :=
  match earliest (timers s) with
  | None => Some s
  | Some tm =>
      if tm_due tm <=? t then
        match fuel with
        | O => None
        | S fuel' => advance fuel' t (fire (tm_due tm) (tm_id tm) s)
        end
      else Some s
  end.

(** A timed call of the debounced function. *)
Record Call : Type := mkCall {
  call_time : Z;
  call_this : option This;
  call_args : list Val
}.

(** [run fuel calls s]: before each call the wake-ups due by then run. *)
Fixpoint run (fuel : nat) (calls : list Call) (s : State) : option State :=
  match calls with
  | [] => Some s
  | k :: rest =>
      match advance fuel (call_time k) s with
      | None => None
      | Some s1 =>
          run fuel rest
              (snd (debounced (call_time k) (call_this k) (call_args k) s1))
      end
  end.

(** The calls, then the wake-ups due up to [horizon]. *)
Definition run_until (fuel : nat) (calls : list Call) (horizon : Z)
           (s : State) : option State :=
  match run fuel calls s with
  | None => None
  | Some s1 => advance fuel horizon s1
  end.

End Closure.

End Debounce.

Arguments Callable {Val This Res} f.
Arguments NotCallable {Val This Res}.
Arguments mkConfig {Val This Res}.
Arguments mkInvocation {Val This}.
Arguments mkState {Val This Res}.
Arguments mkCall {Val This}.
Arguments func {Val This Res} c.
Arguments wait {Val This Res} c.
Arguments timeToWait {Val This Res} c.
Arguments useRAF {Val This Res} c.
Arguments leading {Val This Res} c.
Arguments maxing {Val This Res} c.
Arguments maxWait {Val This Res} c.
Arguments trailing {Val This Res} c.
Arguments inv_time {Val This} i.
Arguments inv_this {Val This} i.
Arguments inv_args {Val This} i.
Arguments lastArgs {Val This Res} s.
Arguments lastThis {Val This Res} s.
Arguments result {Val This Res} s.
Arguments timerId {Val This Res} s.
Arguments lastCallTime {Val This Res} s.
Arguments lastInvokeTime {Val This Res} s.
Arguments timers {Val This Res} s.
Arguments nextId {Val This Res} s.
Arguments invoked {Val This Res} s.
Arguments call_time {Val This} c.
Arguments call_this {Val This} c.
Arguments call_args {Val This} c.
Arguments set_lastArgs {Val This Res} v s.
Arguments set_lastThis {Val This Res} v s.
Arguments set_result {Val This Res} v s.
Arguments set_timerId {Val This Res} v s.
Arguments set_lastCallTime {Val This Res} v s.
Arguments set_lastInvokeTime {Val This Res} v s.
Arguments set_timers {Val This Res} v s.
Arguments set_nextId {Val This Res} v s.
Arguments set_invoked {Val This Res} v s.
Arguments init {Val This Res}.
Arguments register {Val This Res} due frame s.
Arguments setTimeout {Val This Res} now delay s.
Arguments requestAnimationFrame {Val This Res} now s.
Arguments clearTimeout {Val This Res} id s.
Arguments cancelAnimationFrame {Val This Res} id s.
Arguments debounce {Val This Res} f wait_ options hasRAF.
Arguments invokeFunc {Val This Res} c time s.
Arguments startTimer {Val This Res} c now waitFor s.
Arguments cancelTimer {Val This Res} c id s.
Arguments leadingEdge {Val This Res} c time s.
Arguments remainingWait {Val This Res} c time s.
Arguments shouldInvoke {Val This Res} c time s.
Arguments trailingEdge {Val This Res} c time s.
Arguments timerExpired {Val This Res} c now s.
Arguments cancel {Val This Res} c s.
Arguments flush {Val This Res} c now s.
Arguments pending {Val This Res} s.
Arguments debounced {Val This Res} c now this args s.
Arguments fire {Val This Res} c now id s.
Arguments advance {Val This Res} c fuel t s.
Arguments run {Val This Res} c fuel calls s.
Arguments run_until {Val This Res} c fuel calls horizon s.

(** ** A concrete target for the scenarios

    Arguments are strings, [this] is not used, and the target returns the
    list of its arguments. *)

Definition echo : option unit -> list string -> list string :=
  fun _ args => args.

Definition call_at (t : Z) (a : string) : Call string unit :=
  mkCall t None [a].

(** [debounce(echo, 100)] *)
Definition cfg_100 : Config string unit (list string) :=
  mkConfig echo (Some 100) 100 false false false None true.

(** The log of a state, oldest call first, as (time, arguments). *)
Definition history {Val This Res} (s : State Val This Res) : list (Z * list Val) :=
  map (fun i => (inv_time i, inv_args i)) (rev (invoked s)).

(** [debounce(echo, 100, {maxWait: 50})], [debounce(echo, 100, {maxWait: 100})]
    and [debounce(echo, 100, {maxWait: 1000})] *)
Definition opts_maxWait (m : Z) : Options :=
  mkOptions None (Some (Some m)) None.

Definition cfg_100_max (m : Z) : Config string unit (list string) :=
  mkConfig echo (Some 100) 100 false false true (Some (Z.max m 100)) true.

(** [debounce(echo, undefined, {maxWait: 100})] where the host has
    [requestAnimationFrame] *)
Definition cfg_frame_max100 : Config string unit (list string) :=
  mkConfig echo None 0 true false true (Some 100) true.

(** The state after the calls [l], made one after the other with no wake-up
    run in between. *)
Definition after_calls {Val This Res} (c : Config Val This Res)
           (l : list (Call Val This)) (s : State Val This Res) : State Val This Res :=
  fold_left (fun s k => snd (debounced c (call_time k) (call_this k) (call_args k) s)) l s.

(** ** Reachable states

    What the owner of the debounced function and the host can do to it: call
    it, cancel, flush, and run a registered wake-up, each at any clock value. *)
Inductive reachable {Val This Res} (c : Config Val This Res)
  : State Val This Res -> Prop :=
| reach_init : reachable c init
| reach_call now this args s :
    reachable c s -> reachable c (snd (debounced c now this args s))
| reach_fire now id s :
    reachable c s -> reachable c (fire c now id s)
| reach_cancel s :
    reachable c s -> reachable c (cancel c s)
| reach_flush now s :
    reachable c s -> reachable c (snd (flush c now s)).

(** What [func] returned the last time it was called, from the log. *)
Definition last_result {Val This Res} (c : Config Val This Res)
           (log : list (Invocation Val This)) : option Res :=
  match log with
  | [] => None
  | i :: _ => Some (func c (inv_this i) (inv_args i))
  end.

(** Whether a call of the debounced function at [now] calls [func] before it
    returns: the leading edge with [leading] set, or the branch for calls in a
    tight loop. *)
Definition invokes_now {Val This Res} (c : Config Val This Res) (now : Z)
           (s : State Val This Res) : bool :=
  shouldInvoke c now s && (if pending s then maxing c else leading c).

(** The [maxWait] disjunct of [shouldInvoke]. *)
Definition ceiling_hit {Val This Res} (c : Config Val This Res) (now : Z)
           (s : State Val This Res) : bool :=
  maxing c && js_ge (Some (now - lastInvokeTime s)) (maxWait c).

(** ** Vocabulary for runs with a [maxWait] ceiling *)

(** A scheduler built over [setTimeout] with delay [w], ceiling [M] and the
    trailing edge enabled; [debounce] gives [w <= M]. *)
Definition ceiling_config {Val This Res} (c : Config Val This Res) (w M : Z) : Prop :=
  useRAF c = false /\ wait c = Some w /\ timeToWait c = w
  /\ maxing c = true /\ maxWait c = Some M /\ trailing c = true
  /\ 0 <= w <= M.

(** Calls in the order of a clock that does not go backwards from [now]. *)
Fixpoint ordered {Val This} (now : Z) (calls : list (Call Val This)) : Prop :=
  match calls with
  | [] => True
  | k :: rest => now <= call_time k /\ ordered (call_time k) rest
  end.

Fixpoint end_time {Val This} (now : Z) (calls : list (Call Val This)) : Z :=
  match calls with
  | [] => now
  | k :: rest => end_time (call_time k) rest
  end.

(** How much of the table is due by [t], in milliseconds summed over the
    wake-ups: what bounds the number of wake-ups the host runs up to [t]. *)
Fixpoint backlog (t : Z) (l : list Timer) : nat :=
  match l with
  | [] => 0%nat
  | x :: r => (Z.to_nat (t + 1 - tm_due x) + backlog t r)%nat
  end.

(** What holds of the closure variables and the host table between events
    when the clock reads [now]. *)
Record Inv {Val This Res} (w : Z) (now : Z) (s : State Val This Res) : Prop := mkInv {
  inv_due : Forall (fun tm => now <= tm_due tm) (timers s);
  inv_ids : Forall (fun tm => (tm_id tm < nextId s)%nat) (timers s);
  inv_nodup : NoDup (map tm_id (timers s));
  inv_hist : forall lc, lastCallTime s = Some lc ->
                        lc <= now /\ lastInvokeTime s <= now;
  inv_idle : timerId s = None -> lastArgs s = None;
  inv_pend : forall id, timerId s = Some id ->
                        exists tm lc, In tm (timers s) /\ tm_id tm = id
                                      /\ lastCallTime s = Some lc
                                      /\ tm_due tm <= lc + w
}.

(** Arguments are pending and the wake-up the closure holds is due by [D],
    as is the ceiling counted from [lastInvokeTime]. *)
Definition waiting {Val This Res} (M D : Z) (s : State Val This Res) : Prop :=
  lastArgs s <> None
  /\ lastInvokeTime s + M <= D
  /\ exists tm, timerId s = Some (tm_id tm) /\ In tm (timers s) /\ tm_due tm <= D.

(** From [s] to [s'] the log only grew, by calls of [func] made at [lo] or
    later. *)
Definition grows {Val This Res} (lo : Z) (s s' : State Val This Res) : Prop :=
  exists new, invoked s' = new ++ invoked s
              /\ Forall (fun i => lo <= inv_time i) new.

(** From [s] to [s'] [func] was called at least once, by [D]. *)
Definition served {Val This Res} (D : Z) (s s' : State Val This Res) : Prop :=
  exists new i, invoked s' = new ++ invoked s /\ In i new /\ inv_time i <= D.

(** Whether consecutive instants of a list are at most [M] apart. *)
Fixpoint gaps_within (M : Z) (ts : list Z) : bool :=
  match ts with
  | a :: r =>
      match r with
      | b :: _ => (b - a <=? M) && gaps_within M r
      | [] => true
      end
  | [] => true
  end.

(** Calls every [step] ms from 0, [n] of them. *)
Definition calls_every (step : Z) (n : nat) : list (Call string unit) :=
  map (fun i => call_at (step * Z.of_nat i) "x") (seq 0 n).

(** ** Traces of events

    Everything that can happen to a debounced function, in the order it
    happens: its owner calls it, cancels or flushes it, and the host runs a
    wake-up, each at the clock value given. *)
Inductive Event (Val This : Type) : Type :=
| EvCall (now : Z) (this : option This) (args : list Val)
| EvFire (now : Z) (id : nat)
| EvCancel
| EvFlush (now : Z).

Arguments EvCall {Val This} now this args.
Arguments EvFire {Val This} now id.
Arguments EvCancel {Val This}.
Arguments EvFlush {Val This} now.

Definition step {Val This Res} (c : Config Val This Res)
           (s : State Val This Res) (e : Event Val This) : State Val This Res :=
  match e with
  | EvCall now this args => snd (debounced c now this args s)
  | EvFire now id => fire c now id s
  | EvCancel => cancel c s
  | EvFlush now => snd (flush c now s)
  end.

Definition exec {Val This Res} (c : Config Val This Res)
           (events : list (Event Val This)) (s : State Val This Res)
  : State Val This Res :=
  fold_left (step c) events s.

Definition is_call {Val This} (e : Event Val This) : bool :=
  match e with EvCall _ _ _ => true | _ => false end.

Definition is_flush {Val This} (e : Event Val This) : bool :=
  match e with EvFlush _ => true | _ => false end.

(** The [this] and arguments of the calls of a trace. *)
Fixpoint payloads {Val This} (events : list (Event Val This))
  : list (option This * list Val) :=
  match events with
  | [] => []
  | EvCall _ this args :: r => (this, args) :: payloads r
  | _ :: r => payloads r
  end.

(** At most one wake-up is outstanding, and it is the one the closure
    holds. *)
Definition tidy {Val This Res} (s : State Val This Res) : Prop :=
  match timerId s with
  | None => timers s = []
  | Some id => exists d fr, timers s = [mkTimer id d fr]
  end.

(** Bookkeeping against the payloads [P] of the calls made so far: every
    logged call of [func] and the pending arguments come from [P], and there
    are no more of them than calls. *)
Definition accounted {Val This Res} (P : list (option This * list Val))
           (s : State Val This Res) : Prop :=
  Forall (fun i => In (inv_this i, inv_args i) P) (invoked s)
  /\ (forall a, lastArgs s = Some a -> In (lastThis s, a) P)
  /\ (List.length (invoked s)
      + match lastArgs s with Some _ => 1 | None => 0 end
      <= List.length P)%nat.

(** ** Bursts *)

(** A scheduler over [setTimeout] with a positive delay [w] and no
    [maxWait]. *)
Definition burst_config {Val This Res} (c : Config Val This Res) (w : Z) : Prop :=
  useRAF c = false /\ wait c = Some w /\ timeToWait c = w
  /\ maxing c = false /\ 0 < w.

(** Each call comes less than [w] after the one before it. *)
Fixpoint burst {Val This} (w prev : Z) (calls : list (Call Val This)) : Prop :=
  match calls with
  | [] => True
  | k :: rest => prev <= call_time k < prev + w /\ burst w (call_time k) rest
  end.

Definition invocation_of {Val This} (t : Z) (k : Call Val This) : Invocation Val This :=
  mkInvocation t (call_this k) (call_args k).

(** What a burst [first :: rest] makes of [func], newest call first: the
    trailing call with the last arguments, the leading call with the first. *)
Definition burst_log {Val This Res} (c : Config Val This Res) (w : Z)
           (first : Call Val This) (rest : list (Call Val This))
  : list (Invocation Val This) :=
  (if trailing c && (negb (leading c) || negb (Nat.eqb (List.length rest) 0))
   then [invocation_of (call_time (last rest first) + w) (last rest first)]
   else [])
  ++ (if leading c then [invocation_of (call_time first) first] else []).

(** ** [before] and [once]

    The closure of [before(n, func)]: the counter [n], the variable [func],
    which the closure sets to [undefined] when it is done with it, and
    [result].  [bf_calls] is the log of the calls made to [func], newest
    first. *)
Section Before.

Variables Val This Res : Type.

Record BeforeState : Type := mkBefore {
  bf_n : Z;
  bf_func : option (option This -> list Val -> Res);
  bf_result : option Res;
  bf_calls : list (option This * list Val)
}.

Definition before (n : Z) (func : Target Val This Res) : Error + BeforeState :=
  match func with
  | NotCallable => inl (TypeError "Expected a function")
  | Callable f => inr (mkBefore n (Some f) None [])
  end.

(** One call of the function [before] returns.  [func.apply] on [undefined]
    throws; the counter has been decremented by then. *)
Definition beforeInternal (this : option This) (args : list Val)
           (st : BeforeState) : (Error + option Res) * BeforeState :=
  let n := bf_n st - 1 in
  if 0 <? n then
    match bf_func st with
    | None =>
        (inl (TypeError "Cannot read properties of undefined"),
         mkBefore n None (bf_result st) (bf_calls st))
    | Some f =>
        let result := Some (f this args) in
        let func := if n <=? 1 then None else Some f in
        (inr result, mkBefore n func result ((this, args) :: bf_calls st))
    end
  else
    let func := if n <=? 1 then None else bf_func st in
    (inr (bf_result st), mkBefore n func (bf_result st) (bf_calls st)).

Definition once (func : Target Val This Res) : Error + BeforeState :=
  before 2 func.

(** The calls [cs], one after the other: what each returned, and the state
    after the last. *)
Fixpoint before_run (cs : list (option This * list Val)) (st : BeforeState)
  : list (Error + option Res) * BeforeState :=
  match cs with
  | [] => ([], st)
  | (this, args) :: rest =>
      let '(out, st1) := beforeInternal this args st in
      let '(outs, st2) := before_run rest st1 in
      (out :: outs, st2)
  end.

(** [func] applied to the payload of a call. *)
Definition apply_to (f : option This -> list Val -> Res)
           (p : option This * list Val) : Res :=
  f (fst p) (snd p).

End Before.

Arguments mkBefore {Val This Res}.
Arguments bf_n {Val This Res} b.
Arguments bf_func {Val This Res} b.
Arguments bf_result {Val This Res} b.
Arguments bf_calls {Val This Res} b.
Arguments before {Val This Res} n func.
Arguments beforeInternal {Val This Res} this args st.
Arguments once {Val This Res} func.
Arguments before_run {Val This Res} cs st.
Arguments apply_to {Val This Res} f p.

(** ** [debounce2]

    The closure of [debounce2(func, isEvent, timeout)] on a host timer table
    of its own kind: each wake-up carries the arguments its callback will
    pass to [func]. *)
Section Debounce2.

(** Payloads, and the values read from them by [payload.target.value];
    [None] is a payload from which the read throws. *)
Variables Payload Value : Type.
Variable target_value : Payload -> option Value.

(** What [func] receives: [{value: ...}] or the payload itself. *)
Inductive Callee : Type :=
| Wrapped (value : Value)
| Raw (payload : Payload).

Record Timer2 : Type := mkTimer2 {
  t2_id : nat;
  t2_due : Z;
  t2_args : Callee
}.

Record Config2 : Type := mkConfig2 {
  d2_callable : bool;      (* whether [func] is a function *)
  d2_isEvent : bool;
  d2_timeout : Z
}.

Record State2 : Type := mkState2 {
  internalTimer : option nat;
  d2_timers : list Timer2;
  d2_nextId : nat;
  d2_console : list Callee;          (* what went to [console.log] *)
  d2_invoked : list (Z * Callee)     (* the calls of [func], newest first *)
}.

(** [debounce2(func, isEvent = false, timeout = 400)] *)
Definition debounce2 (callable : bool) (isEvent : option bool)
           (timeout : option Z) : Config2 * State2 :=
  (mkConfig2 callable
             (match isEvent with Some b => b | None => false end)
             (match timeout with Some t => t | None => 400 end),
   mkState2 None [] 1%nat [] []).

Definition drop_timer2 (id : nat) (l : list Timer2) : list Timer2 :=
  filter (fun tm => negb (Nat.eqb (t2_id tm) id)) l.

Definition clearTimeout2 (id : option nat) (s : State2) : State2 :=
  match id with
  | Some i =>
      mkState2 (internalTimer s) (drop_timer2 i (d2_timers s)) (d2_nextId s)
               (d2_console s) (d2_invoked s)
  | None => s
  end.

(** One call of the function [debounce2] returns, at clock [now]. *)
Definition debounced2 (c : Config2) (now : Z) (payload : Payload)
           (s : State2) : option Error * State2 :=
  let s := clearTimeout2 (internalTimer s) s in
  let calleeArguments :=
    if d2_isEvent c
    then option_map Wrapped (target_value payload)
    else Some (Raw payload) in
  match calleeArguments with
  | None => (Some (TypeError "Cannot read properties of undefined"), s)
  | Some ca =>
      let id := d2_nextId s in
      (None,
       mkState2 (Some id)
                (d2_timers s
                 ++ [mkTimer2 id (now + timeout_delay (Some (d2_timeout c))) ca])
                (S id) (ca :: d2_console s) (d2_invoked s))
  end.

(** The host running the wake-up [id] at [now]: its callback calls [func],
    which throws when [func] is not a function. *)
Definition fire2 (c : Config2) (now : Z) (id : nat) (s : State2)
  : option Error * State2 :=
  match find (fun tm => Nat.eqb (t2_id tm) id) (d2_timers s) with
  | None => (None, s)
  | Some tm =>
      let s1 := mkState2 (internalTimer s) (drop_timer2 id (d2_timers s))
                         (d2_nextId s) (d2_console s) (d2_invoked s) in
      if d2_callable c
      then (None,
            mkState2 (internalTimer s1) (d2_timers s1) (d2_nextId s1)
                     (d2_console s1) ((now, t2_args tm) :: d2_invoked s1))
      else (Some (TypeError "func is not a function"), s1)
  end.

Fixpoint earliest2 (l : list Timer2) : option Timer2 :=
  match l with
  | [] => None
  | x :: r =>
      match earliest2 r with
      | None => Some x
      | Some y => if t2_due y <? t2_due x then Some y else Some x
      end
  end.

(** The wake-ups due by [t], each at its due time, earliest first.  A
    callback registers nothing, so there are at most as many to run as the
    table holds. *)
Fixpoint advance2_upto (fuel : nat) (c : Config2) (t : Z) (s : State2) : State2 :=
  match fuel with
  | O => s
  | S fuel' =>
      match earliest2 (d2_timers s) with
      | None => s
      | Some tm =>
          if t2_due tm <=? t
          then advance2_upto fuel' c t (snd (fire2 c (t2_due tm) (t2_id tm) s))
          else s
      end
  end.

Definition advance2 (c : Config2) (t : Z) (s : State2) : State2 :=
  advance2_upto (List.length (d2_timers s)) c t s.

(** Timed calls on a host with exact timers, then the wake-ups due up to
    [horizon]. *)
Fixpoint run2 (c : Config2) (calls : list (Z * Payload)) (horizon : Z)
         (s : State2) : State2 :=
  match calls with
  | [] => advance2 c horizon s
  | (t, p) :: rest =>
      run2 c rest horizon (snd (debounced2 c t p (advance2 c t s)))
  end.

(** Any sequence of calls and wake-ups, at any clock values. *)
Inductive Event2 : Type :=
| Ev2Call (now : Z) (payload : Payload)
| Ev2Fire (now : Z) (id : nat).

Definition step2 (c : Config2) (s : State2) (e : Event2) : State2 :=
  match e with
  | Ev2Call now p => snd (debounced2 c now p s)
  | Ev2Fire now id => snd (fire2 c now id s)
  end.

(** Which calls reach [func], and when: a call whose successor comes no
    sooner than [T] after it, or the last one if the horizon is as far. *)
Fixpoint survivors (T horizon : Z) (calls : list (Z * Payload))
  : list (Z * Callee) :=
  match calls with
  | [] => []
  | (t, p) :: rest =>
      let next := match rest with (t', _) :: _ => t' | [] => horizon end in
      (if t + T <=? next then [(t + T, Raw p)] else [])
      ++ survivors T horizon rest
  end.

Fixpoint ordered2 (now : Z) (calls : list (Z * Payload)) : Prop :=
  match calls with
  | [] => True
  | (t, _) :: rest => now <= t /\ ordered2 t rest
  end.

End Debounce2.

Arguments Wrapped {Payload Value} value.
Arguments Raw {Payload Value} payload.
Arguments mkTimer2 {Payload Value}.
Arguments t2_id {Payload Value} t.
Arguments t2_due {Payload Value} t.
Arguments t2_args {Payload Value} t.
Arguments mkState2 {Payload Value}.
Arguments internalTimer {Payload Value} s.
Arguments d2_timers {Payload Value} s.
Arguments d2_nextId {Payload Value} s.
Arguments d2_console {Payload Value} s.
Arguments d2_invoked {Payload Value} s.
Arguments debounce2 {Payload Value} callable isEvent timeout.
Arguments drop_timer2 {Payload Value} id l.
Arguments clearTimeout2 {Payload Value} id s.
Arguments debounced2 {Payload Value} target_value c now payload s.
Arguments fire2 {Payload Value} c now id s.
Arguments earliest2 {Payload Value} l.
Arguments advance2_upto {Payload Value} fuel c t s.
Arguments advance2 {Payload Value} c t s.
Arguments run2 {Payload Value} target_value c calls horizon s.
Arguments Ev2Call {Payload} now payload.
Arguments Ev2Fire {Payload} now id.
Arguments step2 {Payload Value} target_value c s e.
Arguments survivors {Payload Value} T horizon calls.
Arguments ordered2 {Payload} now calls.

(** The names every plain object inherits from [Object.prototype]: reading
    one of them from [{}] gives a function (for [__proto__]: the prototype),
    not [undefined]. *)
Definition object_prototype_names : list string :=
  ["constructor"; "__defineGetter__"; "__defineSetter__"; "hasOwnProperty";
   "__lookupGetter__"; "__lookupSetter__"; "isPrototypeOf";
   "propertyIsEnumerable"; "toString"; "valueOf"; "__proto__";
   "toLocaleString"]%string.

Definition inherited (k : string) : bool :=
  existsb (String.eqb k) object_prototype_names.

(** ** [EventEmitter]

    The registry maps an event name to the array of its listeners.  It is a
    plain object: for a name it has no property for, [this.registry[name]]
    is [undefined], or what [Object.prototype] has under that name.  A
    listener is a function of the caller, known by its identity, which logs
    its call and leaves the emitter alone, or the closure [doOnce] that
    [once] builds around one.  A method that throws leaves no emitter to go
    on with. *)
Module EventEmitter.

Inductive Listener : Type :=
| User (id : nat)
| DoOnce (uid : nat) (name : string) (listener : Listener).

(** [===] on functions: each [doOnce] closure is an object of its own. *)
Definition same (a b : Listener) : bool :=
  match a, b with
  | User i, User j => Nat.eqb i j
  | DoOnce u _ _, DoOnce v _ _ => Nat.eqb u v
  | _, _ => false
  end.

Section WithArgs.

Variable Args : Type.

Record Emitter : Type := mkEmitter {
  registry : list (string * list Listener);
  next_uid : nat;                  (* closures created so far *)
  heard : list (nat * Args)        (* calls of the caller's functions, newest first *)
}.

(** [new EventEmitter()] *)
Definition create : Emitter := mkEmitter [] 0%nat [].

Fixpoint reg_get (r : list (string * list Listener)) (name : string)
  : option (list Listener) :=
  match r with
  | [] => None
  | (k, v) :: rest => if String.eqb k name then Some v else reg_get rest name
  end.

Fixpoint reg_set (r : list (string * list Listener)) (name : string)
         (v : list Listener) : list (string * list Listener) :=
  match r with
  | [] => [(name, v)]
  | (k, v0) :: rest =>
      if String.eqb k name then (k, v) :: rest
      else (k, v0) :: reg_set rest name v
  end.

(** [listeners.splice(i, 1)] at the first [i] with [listeners[i] === l]. *)
Fixpoint remove_first (l : Listener) (ls : list Listener) : list Listener :=
  match ls with
  | [] => []
  | x :: r => if same x l then r else x :: remove_first l r
  end.

(** [this.registry[name] = this.registry[name] || []] stores what the
    prototype has when the name is inherited, and that has no [push]. *)
Definition on (name : string) (listener : Listener) (e : Emitter)
  : Error + Emitter :=
  match reg_get (registry e) name with
  | Some arr =>
      inr (mkEmitter (reg_set (registry e) name (arr ++ [listener]))
                     (next_uid e) (heard e))
  | None =>
      if inherited name
      then inl (TypeError "push is not a function")
      else inr (mkEmitter (reg_set (registry e) name [listener])
                          (next_uid e) (heard e))
  end.

(** For an inherited name without a property of its own the loop runs over
    what the prototype has and finds no listener there. *)
Definition removeListener (name : string) (listener : Listener) (e : Emitter)
  : Emitter :=
  match reg_get (registry e) name with
  | None => e
  | Some listeners =>
      mkEmitter (reg_set (registry e) name (remove_first listener listeners))
                (next_uid e) (heard e)
  end.

Definition once (name : string) (listener : Listener) (e : Emitter)
  : Error + Emitter :=
  let doOnce := DoOnce (next_uid e) name listener in
  on name doOnce (mkEmitter (registry e) (S (next_uid e)) (heard e)).

(** Calling a listener with [args]. *)
Fixpoint call (l : Listener) (args : Args) (e : Emitter) : Emitter :=
  match l with
  | User id => mkEmitter (registry e) (next_uid e) ((id, args) :: heard e)
  | DoOnce uid name inner =>
      removeListener name (DoOnce uid name inner) (call inner args e)
  end.

(** [listeners.forEach(...)] from index [k], [n] indices to go: the length is
    read once, the array is read at each step, and an index the array no
    longer has is passed over. *)
Fixpoint forEach_from (n k : nat) (name : string) (args : Args)
         (st : nat * Emitter) : nat * Emitter :=
  match n with
  | O => st
  | S n' =>
      let '(count, e) := st in
      let listeners := match reg_get (registry e) name with
                       | Some a => a
                       | None => []
                       end in
      forEach_from n' (S k) name args
                   (match nth_error listeners k with
                    | Some l => (S count, call l args e)
                    | None => st
                    end)
  end.

(** What the prototype has under an inherited name is truthy and has no
    [forEach]. *)
Definition emit (name : string) (args : Args) (e : Emitter)
  : Error + bool * Emitter :=
  match reg_get (registry e) name with
  | None =>
      if inherited name
      then inl (TypeError "forEach is not a function")
      else inr (false, e)
  | Some listeners =>
      let '(count, e') :=
        forEach_from (List.length listeners) 0 name args (0%nat, e) in
      inr (Nat.ltb 0 count, e')
  end.

End WithArgs.

Arguments mkEmitter {Args}.
Arguments registry {Args} e.
Arguments next_uid {Args} e.
Arguments heard {Args} e.
Arguments create {Args}.
Arguments on {Args} name listener e.
Arguments removeListener {Args} name listener e.
Arguments once {Args} name listener e.
Arguments call {Args} l args e.
Arguments forEach_from {Args} n k name args st.
Arguments emit {Args} name args e.

(** What one [emit] visits, and what it leaves registered, when the
    listeners are [ls]: the listener that follows a [doOnce] moves into the
    slot just visited and is passed over. *)
Fixpoint visited (ls : list Listener) : list nat :=
  match ls with
  | [] => []
  | User i :: r => i :: visited r
  | DoOnce _ _ (User i) :: r =>
      i :: match r with
           | [] => []
           | _ :: r' => visited r'
           end
  | DoOnce _ _ _ :: r => visited r
  end.

Fixpoint kept (ls : list Listener) : list Listener :=
  match ls with
  | [] => []
  | User i :: r => User i :: kept r
  | DoOnce _ _ _ :: r =>
      match r with
      | [] => []
      | x :: r' => x :: kept r'
      end
  end.

(** The [doOnce] closures of a list are distinct, were registered under
    [name], and wrap functions of the caller. *)
Fixpoint uids (ls : list Listener) : list nat :=
  match ls with
  | [] => []
  | User _ :: r => uids r
  | DoOnce u _ _ :: r => u :: uids r
  end.

Definition once_for (name : string) (l : Listener) : Prop :=
  match l with
  | User _ => True
  | DoOnce _ n (User _) => n = name
  | DoOnce _ _ _ => False
  end.

Definition well_formed (name : string) (ls : list Listener) : Prop :=
  NoDup (uids ls) /\ Forall (once_for name) ls.

End EventEmitter.

(** What a user of an emitter does with it, with functions of its own. *)
Inductive EmitterOp (Args : Type) : Type :=
| OpOn (name : string) (id : nat)
| OpOnce (name : string) (id : nat)
| OpRemove (name : string) (id : nat)
| OpEmit (name : string) (args : Args).

Arguments OpOn {Args} name id.
Arguments OpOnce {Args} name id.
Arguments OpRemove {Args} name id.
Arguments OpEmit {Args} name args.

Definition emitter_step {Args} (r : Error + EventEmitter.Emitter Args)
           (op : EmitterOp Args) : Error + EventEmitter.Emitter Args :=
  match r with
  | inl err => inl err
  | inr e =>
      match op with
      | OpOn name id => EventEmitter.on name (EventEmitter.User id) e
      | OpOnce name id => EventEmitter.once name (EventEmitter.User id) e
      | OpRemove name id =>
          inr (EventEmitter.removeListener name (EventEmitter.User id) e)
      | OpEmit name args =>
          match EventEmitter.emit name args e with
          | inl err => inl err
          | inr (_, e') => inr e'
          end
      end
  end.

(** ** Objects as the utilities use them

    A plain object is the list of its own enumerable properties, in the order
    [Object.keys] gives them; property names are strings. *)
Section Objects.

Variable V : Type.

Fixpoint obj_get (o : list (string * V)) (k : string) : option V :=
  match o with
  | [] => None
  | (k0, v) :: rest => if String.eqb k0 k then Some v else obj_get rest k
  end.

(** [{...o, [k]: v}]: an existing property keeps its place. *)
Fixpoint obj_set (o : list (string * V)) (k : string) (v : V)
  : list (string * V) :=
  match o with
  | [] => [(k, v)]
  | (k0, v0) :: rest =>
      if String.eqb k0 k then (k0, v) :: rest
      else (k0, v0) :: obj_set rest k v
  end.

Definition includes (arr : list string) (k : string) : bool :=
  existsb (String.eqb k) arr.

(** [omit(obj, arr)]; [obj[key]] is there for every key of [obj]. *)
Definition omit (obj : list (string * V)) (arr : list string)
  : list (string * V) :=
  fold_left
    (fun acc key =>
       match obj_get obj key with
       | Some v => obj_set acc key v
       | None => acc
       end)
    (filter (fun k => negb (includes arr k)) (map fst obj))
    [].

End Objects.

Arguments obj_get {V} o k.
Arguments obj_set {V} o k v.
Arguments omit {V} obj arr.

Section GroupBy.

Variable X : Type.

(** [groupBy(xs, key)]; [key x] is the property name that [key(x)], or
    [x[key]] when [key] is no function, converts to.  [rv[v] || []] is the
    inherited value when [v] is inherited and not yet a property of [rv],
    and that value has no [push]. *)
Definition groupBy_step (key : X -> string)
           (rv : Error + list (string * list X)) (x : X)
  : Error + list (string * list X) :=
  match rv with
  | inl e => inl e
  | inr o =>
      let v := key x in
      match obj_get o v with
      | Some group => inr (obj_set o v (group ++ [x]))
      | None =>
          if inherited v
          then inl (TypeError "push is not a function")
          else inr (obj_set o v [x])
      end
  end.

Definition groupBy (xs : list X) (key : X -> string)
  : Error + list (string * list X) :=
  fold_left (groupBy_step key) xs (inr []).

(** [sumBy(arr, fn)] on numbers. *)
Definition sumBy (arr : list X) (fn : X -> Z) : Z :=
  fold_left (fun acc val => acc + val) (map fn arr) 0.

End GroupBy.

Arguments groupBy_step {X} key rv x.
Arguments groupBy {X} xs key.
Arguments sumBy {X} arr fn.

(** ** [classnames]

    The values it can be given: [undefined], [null], booleans, integers,
    strings, arrays without holes and plain objects. *)
#[warnings="-register-all"]
Inductive JsVal : Type :=
| JUndefined
| JNull
| JBool (b : bool)
| JNum (z : Z)
| JStr (s : string)
| JArr (l : list JsVal)
| JObj (o : list (string * JsVal)).

Definition decimal (z : Z) : string :=
  NilZero.string_of_int (Z.to_int z).

(** [!!v] *)
Definition truthy (v : JsVal) : bool :=
  match v with
  | JUndefined | JNull => false
  | JBool b => b
  | JNum z => negb (z =? 0)
  | JStr s => negb (String.eqb s "")
  | JArr _ | JObj _ => true
  end.

Definition typeof (v : JsVal) : string :=
  match v with
  | JUndefined => "undefined"
  | JNull | JArr _ | JObj _ => "object"
  | JBool _ => "boolean"
  | JNum _ => "number"
  | JStr _ => "string"
  end.

(** [String(v)], and inside it the elements of an array as [join] prints
    them. *)
Fixpoint to_str (v : JsVal) : string :=
  match v with
  | JUndefined => "undefined"
  | JNull => "null"
  | JBool b => if b then "true" else "false"
  | JNum z => decimal z
  | JStr s => s
  | JArr l =>
      String.concat ","
        (map (fun x => match x with
                       | JUndefined | JNull => ""%string
                       | _ => to_str x
                       end) l)
  | JObj _ => "[object Object]"
  end.

(** [arr.join(sep)] *)
Definition join (sep : string) (arr : list JsVal) : string :=
  String.concat sep
    (map (fun x => match x with
                   | JUndefined | JNull => ""%string
                   | _ => to_str x
                   end) arr).

(** [Object.entries(v)]: [None] where it throws. *)
Definition entries (v : JsVal) : option (list (string * JsVal)) :=
  match v with
  | JUndefined | JNull => None
  | JObj o => Some o
  | JArr l => Some (combine (map (fun i => decimal (Z.of_nat i))
                                 (seq 0 (List.length l))) l)
  | JStr s =>
      Some (combine (map (fun i => decimal (Z.of_nat i))
                         (seq 0 (String.length s)))
                    (map (fun ch => JStr (String ch EmptyString))
                         (list_ascii_of_string s)))
  | JBool _ | JNum _ => Some []
  end.

Definition classnames (arg : JsVal) : Error + string :=
  let argType := typeof arg in
  let classes : list JsVal := [] in
  let classes :=
    if String.eqb argType "string" || String.eqb argType "number"
    then [arg] else classes in
  let classes :=
    match arg with
    | JArr l => l
    | _ => classes
    end in
  if String.eqb argType "object" then
    match entries arg with
    | None => inl (TypeError "Cannot convert undefined or null to object")
    | Some es =>
        inr (join " " (map (fun kv => JStr (fst kv))
                           (filter (fun kv => truthy (snd kv)) es)))
    end
  else inr (join " " classes).

(** * Properties *)

Ltac unfold_closure :=
  unfold debounced, flush, cancel, timerExpired, trailingEdge, leadingEdge,
    invokeFunc, cancelTimer, startTimer, setTimeout, requestAnimationFrame,
    cancelAnimationFrame, clearTimeout, register, pending, invokes_now,
    ceiling_hit in *.

(** The configurations of the scenarios are what the constructor builds. *)
Example cfg_100_built :
  forall hasRAF,
    debounce (Callable echo) (Some 100) None hasRAF = inr (cfg_100, init).
Proof. intros hasRAF. reflexivity. Qed.

Example cfg_100_max_built :
  forall m hasRAF,
    debounce (Callable echo) (Some 100) (Some (opts_maxWait m)) hasRAF
    = inr (cfg_100_max m, init).
Proof. intros m hasRAF. reflexivity. Qed.

Example cfg_frame_max100_built :
  debounce (Callable echo) None (Some (opts_maxWait 100)) true
  = inr (cfg_frame_max100, init).
Proof. reflexivity. Qed.

Section Constructor.

Variables Val This Res : Type.

(** C9.  Whatever the delay, the options and the host, [debounce] called with
    a first argument that is not a function throws the [TypeError]
    "Expected a function" and builds no scheduler. *)
Theorem C9_not_callable_rejected :
  forall (wait_ : option Z) (options : option Options) (hasRAF : bool),
    @debounce Val This Res NotCallable wait_ options hasRAF
    = inl (TypeError "Expected a function").
Proof. intros. reflexivity. Qed.

(** C6, as the code has it.  A [maxWait] option below the delay does not make
    [debounce] fail: the scheduler is built, and its ceiling is the delay. *)
Theorem C6_maxWait_raised_to_wait :
  forall (fn : option This -> list Val -> Res) (wait_ : option Z)
         (o : Options) (m : option Z) (hasRAF : bool),
    opt_maxWait o = Some m ->
    to_number_or_0 m < to_number_or_0 wait_ ->
    exists c : Config Val This Res,
      debounce (Callable fn) wait_ (Some o) hasRAF = inr (c, init)
      /\ maxing c = true
      /\ timeToWait c = to_number_or_0 wait_
      /\ maxWait c = Some (timeToWait c).
Proof.
  intros fn wait_ o m hasRAF Hm Hlt.
  unfold debounce. rewrite Hm.
  eexists. split; [reflexivity|]. cbn.
  repeat split. f_equal. lia.
Qed.

End Constructor.

(** C6, as the spec has it, fails: [debounce(echo, 100, {maxWait: 50})] returns
    a scheduler. *)
Lemma C6_counterexample :
  ~ (exists e, debounce (Callable echo) (Some 100) (Some (opts_maxWait 50)) false
               = inl e).
Proof. intros [e H]. discriminate H. Qed.

Lemma C6_witness :
  exists c : Config string unit (list string),
    debounce (Callable echo) (Some 100) (Some (opts_maxWait 50)) false = inr (c, init)
    /\ maxing c = true
    /\ timeToWait c = to_number_or_0 (Some 100)
    /\ maxWait c = Some (timeToWait c).
Proof.
  apply (C6_maxWait_raised_to_wait string unit (list string) echo (Some 100)
           (opts_maxWait 50) (Some 50) false).
  - reflexivity.
  - simpl. lia.
Defined.

Section Transitions.

Variables Val This Res : Type.
Variable c : Config Val This Res.

Implicit Types s : State Val This Res.

(** C3, as the code has it.  [cancel] clears [lastCallTime], [lastArgs],
    [lastThis] and [timerId], takes the wake-up it held out of the host
    table, calls [func] zero times and keeps [result]; [lastInvokeTime] is
    not kept: it is set back to 0. *)
Theorem C3_cancel_resets :
  forall s,
    lastCallTime (cancel c s) = None
    /\ lastArgs (cancel c s) = None
    /\ lastThis (cancel c s) = None
    /\ timerId (cancel c s) = None
    /\ invoked (cancel c s) = invoked s
    /\ result (cancel c s) = result s
    /\ lastInvokeTime (cancel c s) = 0
    /\ match timerId s with
       | Some id => has_timer id (timers (cancel c s)) = false
       | None => timers (cancel c s) = timers s
       end.
Proof.
  intros [a t r [id|] lc li tm n l]; unfold_closure;
    destruct (useRAF c); cbn; repeat split; try reflexivity.
  all: unfold has_timer, drop_timer;
    induction tm as [|x tm IH]; cbn; [reflexivity|];
    destruct (Nat.eqb (tm_id x) id) eqn:E; cbn; [exact IH|];
    rewrite E; exact IH.
Qed.

(** C5, as the code has it.  When the wake-up handler runs and
    [shouldInvoke] holds, [timerId], [lastArgs] and [lastThis] are cleared;
    with [trailing] set and arguments pending, [func] is called once with
    them, [lastInvokeTime] becomes the current time and the handler returns
    the new result; otherwise [func] is not called.  [lastCallTime] is left
    as it was. *)
Theorem C5_trailing_edge :
  forall now s,
    shouldInvoke c now s = true ->
    let s' := snd (timerExpired c now s) in
    timerId s' = None
    /\ lastArgs s' = None
    /\ lastThis s' = None
    /\ lastCallTime s' = lastCallTime s
    /\ timers s' = timers s
    /\ match lastArgs s with
       | Some a =>
           if trailing c then
             invoked s' = mkInvocation now (lastThis s) a :: invoked s
             /\ lastInvokeTime s' = now
             /\ result s' = Some (func c (lastThis s) a)
           else
             invoked s' = invoked s
             /\ lastInvokeTime s' = lastInvokeTime s
             /\ result s' = result s
       | None =>
           invoked s' = invoked s
           /\ lastInvokeTime s' = lastInvokeTime s
           /\ result s' = result s
       end.
Proof.
  intros now s H. unfold timerExpired. rewrite H.
  destruct s as [[a|] t r i lc li tm n l]; unfold_closure; cbn;
    destruct (trailing c); cbn; repeat split; reflexivity.
Qed.


(** C8, as the code has it.  A call that arrives while a wake-up is held and
    for which [shouldInvoke] holds calls [func] at once, and registers a
    wake-up for [timeToWait], exactly when a [maxWait] was configured,
    whichever disjunct of [shouldInvoke] held; with no [maxWait] configured
    it calls nothing and keeps the wake-up it had. *)
Theorem C8_pending_call :
  forall now this args s,
    pending s = true ->
    shouldInvoke c now s = true ->
    let r := fst (debounced c now this args s) in
    let s' := snd (debounced c now this args s) in
    if maxing c then
      invoked s' = mkInvocation now this args :: invoked s
      /\ r = Some (func c this args)
      /\ lastInvokeTime s' = now
      /\ timerId s' = Some (nextId s)
      /\ In (mkTimer (nextId s)
               (if useRAF c then now else now + Z.max 0 (timeToWait c))
               (useRAF c))
            (timers s')
    else
      invoked s' = invoked s
      /\ r = result s
      /\ lastInvokeTime s' = lastInvokeTime s
      /\ timerId s' = timerId s
      /\ timers s' = timers s.
Proof.
  intros now this args s Hp Hs.
  unfold debounced. rewrite Hs.
  destruct s as [a t r [id|] lc li tm n l]; [|discriminate Hp].
  unfold_closure. cbn.
  destruct (maxing c); cbn; [|repeat split; reflexivity].
  destruct (useRAF c); cbn; repeat split; try reflexivity;
    apply in_or_app; right; left; reflexivity.
Qed.

End Transitions.

(** C3, as the spec has it, fails: after [debounce(echo, 100)] is called at
    time 5, [lastInvokeTime] is 5, and [cancel] does not leave it unchanged. *)
Lemma C3_counterexample :
  lastInvokeTime (cancel cfg_100 (after_calls cfg_100 [call_at 5 "A"] init))
  <> lastInvokeTime (after_calls cfg_100 [call_at 5 "A"] init).
Proof. cbv. discriminate. Qed.

(** C5, as the spec has it, fails: the wake-up of a single call at time 0 runs
    at time 100 with [shouldInvoke] true, and [lastCallTime] is still 0. *)
Lemma C5_counterexample :
  shouldInvoke cfg_100 100 (after_calls cfg_100 [call_at 0 "A"] init) = true
  /\ lastCallTime
       (snd (timerExpired cfg_100 100 (after_calls cfg_100 [call_at 0 "A"] init)))
     <> None.
Proof. split; [reflexivity | cbv; discriminate]. Qed.

Lemma C5_witness :
  invoked (snd (timerExpired cfg_100 100 (after_calls cfg_100 [call_at 0 "A"] init)))
  = [mkInvocation 100 None ["A"%string]].
Proof.
  pose proof (C5_trailing_edge string unit (list string) cfg_100 100
                (after_calls cfg_100 [call_at 0 "A"] init) eq_refl) as H.
  exact (proj1 (proj2 (proj2 (proj2 (proj2 (proj2 H)))))).
Defined.

(** C8, as the spec has it, fails: with a delay of 100 and a [maxWait] of 1000,
    a call at time 150 that finds the wake-up of the call at time 0 still held
    calls [func] at once, 150 ms after the last reset of [lastInvokeTime]; so
    does a call whose clock reads 40 after a call at 50. *)
Lemma C8_counterexample :
  pending (after_calls (cfg_100_max 1000) [call_at 0 "A"] init) = true
  /\ shouldInvoke (cfg_100_max 1000) 150
       (after_calls (cfg_100_max 1000) [call_at 0 "A"] init) = true
  /\ ceiling_hit (cfg_100_max 1000) 150
       (after_calls (cfg_100_max 1000) [call_at 0 "A"] init) = false
  /\ invoked (after_calls (cfg_100_max 1000) [call_at 0 "A"] init) = []
  /\ invoked (after_calls (cfg_100_max 1000) [call_at 0 "A"; call_at 150 "B"] init)
     = [mkInvocation 150 None ["B"%string]]
  /\ ceiling_hit (cfg_100_max 1000) 40
       (after_calls (cfg_100_max 1000) [call_at 50 "A"] init) = false
  /\ invoked (after_calls (cfg_100_max 1000) [call_at 50 "A"; call_at 40 "B"] init)
     = [mkInvocation 40 None ["B"%string]].
Proof. repeat split. Qed.

Lemma C8_witness :
  invoked (after_calls (cfg_100_max 1000) [call_at 0 "A"; call_at 150 "B"] init)
  = [mkInvocation 150 None ["B"%string]].
Proof.
  pose proof (C8_pending_call string unit (list string) (cfg_100_max 1000) 150
                None ["B"%string]
                (after_calls (cfg_100_max 1000) [call_at 0 "A"] init)
                eq_refl eq_refl) as H.
  exact (proj1 H).
Defined.

Section Burst.

Variables Val This Res : Type.
Variable f : option This -> list Val -> Res.

(** With no wake-up outstanding the host has nothing to run. *)
Lemma advance_idle :
  forall (c : Config Val This Res) fuel t s,
    timers s = [] -> advance c fuel t s = Some s.
Proof.
  intros c fuel t s H. destruct fuel; cbn; rewrite H; reflexivity.
Qed.

(** C1.  For [debounce(f, 100, {leading: false, trailing: true})] called at
    times 0, 30 and 60 with arguments [A], [B] and [C] on a host with exact
    timers: the wake-up registered at time 0 runs at time 100, calls nothing
    and registers a wake-up for the remaining 60 ms; that one runs at time
    160 and calls [f] with [C].  Up to any later time [f] has been called
    exactly once. *)
Theorem C1_three_calls_one_invocation :
  forall (thA thB thC : option This) (A B C : list Val) (hasRAF : bool)
         (fuel : nat) (horizon : Z),
    (2 <= fuel)%nat ->
    exists c : Config Val This Res,
      debounce (Callable f) (Some 100)
               (Some (mkOptions (Some false) None (Some true))) hasRAF
      = inr (c, init)
      /\ exists s,
        run_until c fuel [mkCall 0 thA A; mkCall 30 thB B; mkCall 60 thC C]
                  horizon init = Some s
        /\ invoked s
           = (if 160 <=? horizon then [mkInvocation 160 thC C] else [])
        /\ timers s
           = (if 160 <=? horizon then []
              else if 100 <=? horizon then [mkTimer 2 160 false]
                   else [mkTimer 1 100 false]).
Proof.
  intros thA thB thC A B C hasRAF fuel horizon Hfuel.
  destruct fuel as [|[|fuel]]; try lia.
  eexists. split; [reflexivity|].
  unfold run_until. cbn.
  destruct (100 <=? horizon) eqn:H100.
  - cbn. destruct (160 <=? horizon) eqn:H160.
    + cbn. rewrite advance_idle by reflexivity.
      eexists. split; [reflexivity|]. split; reflexivity.
    + eexists. split; [reflexivity|]. split; reflexivity.
  - assert (H160 : (160 <=? horizon) = false).
    { apply Z.leb_gt. apply Z.leb_gt in H100. lia. }
    rewrite H160. eexists. split; [reflexivity|]. split; reflexivity.
Qed.

End Burst.

Lemma C1_witness :
  exists c : Config string unit (list string),
    debounce (Callable echo) (Some 100)
             (Some (mkOptions (Some false) None (Some true))) false
    = inr (c, init)
    /\ exists s,
      run_until c 2 [mkCall 0 None ["A"%string]; mkCall 30 None ["B"%string];
                     mkCall 60 None ["C"%string]] 1000 init = Some s
      /\ invoked s = [mkInvocation 160 None ["C"%string]]
      /\ timers s = [].
Proof.
  apply (C1_three_calls_one_invocation string unit (list string) echo
           None None None ["A"%string] ["B"%string] ["C"%string] false 2%nat 1000).
  lia.
Defined.

(** C4.  The code holds more than one outstanding wake-up in three concrete
    runs of the [setTimeout] backend, where [startTimer] registers without
    clearing, and holds one in the same run of the frame backend, where
    [startTimer] cancels first:
    - [debounce(echo, 100, {maxWait: 100})] called at 0 and, before the host
      has run the wake-up, at 150: the re-arm for calls in a tight loop leaves
      the wake-up for 100 in the table;
    - the same with exact timers and calls at 0, 60, 120 and 210;
    - [debounce(echo, 100)] called at 0, flushed at 10, called at 20: [flush]
      forgets the handle without clearing it;
    - [debounce(echo, undefined, {maxWait: 100})] with [requestAnimationFrame],
      called at 0 and at 5: one frame request remains. *)
Theorem C4_two_outstanding_wakeups :
  timers (after_calls (cfg_100_max 100) [call_at 0 "A"; call_at 150 "B"] init)
  = [mkTimer 1 100 false; mkTimer 2 250 false]
  /\ option_map (@timers _ _ _)
       (run (cfg_100_max 100) 2
            [call_at 0 "A"; call_at 60 "B"; call_at 120 "C"; call_at 210 "D"] init)
     = Some [mkTimer 2 220 false; mkTimer 3 310 false]
  /\ timers (after_calls cfg_100 [call_at 20 "B"]
               (snd (flush cfg_100 10 (after_calls cfg_100 [call_at 0 "A"] init))))
     = [mkTimer 1 100 false; mkTimer 2 120 false]
  /\ timers (after_calls cfg_frame_max100 [call_at 0 "A"; call_at 5 "B"] init)
     = [mkTimer 2 5 true].
Proof. repeat split. Qed.

Section Results.

Variables Val This Res : Type.
Variable c : Config Val This Res.

Implicit Types s : State Val This Res.

Lemma invokeFunc_result :
  forall time s,
    result (snd (invokeFunc c time s))
    = last_result c (invoked (snd (invokeFunc c time s))).
Proof. intros time s. destruct s. reflexivity. Qed.

Lemma trailingEdge_result :
  forall time s,
    result s = last_result c (invoked s) ->
    result (snd (trailingEdge c time s))
    = last_result c (invoked (snd (trailingEdge c time s))).
Proof.
  intros time [[a|] t r i lc li tm n l] H; unfold trailingEdge;
    destruct (trailing c); cbn in *; try reflexivity; exact H.
Qed.

Lemma debounced_result :
  forall now this args s,
    result s = last_result c (invoked s) ->
    result (snd (debounced c now this args s))
    = last_result c (invoked (snd (debounced c now this args s))).
Proof.
  intros now this args s H. unfold debounced.
  destruct (shouldInvoke c now s);
    destruct s as [a t r [id|] lc li tm n l]; unfold_closure; cbn in *;
    destruct (maxing c), (useRAF c), (leading c); cbn; try reflexivity;
    exact H.
Qed.

(** In every reachable state [result] is what the latest call of [func]
    returned, and is undefined when [func] was never called. *)
Lemma reachable_result :
  forall s, reachable c s -> result s = last_result c (invoked s).
Proof.
  intros s H. induction H as [|now this args s _ IH|now id s _ IH|s _ IH|now s _ IH].
  - reflexivity.
  - apply debounced_result, IH.
  - unfold fire. destruct (has_timer id (timers s)); [|exact IH].
    unfold timerExpired.
    destruct (shouldInvoke c now _).
    + apply trailingEdge_result.
      destruct s; exact IH.
    + destruct s as [a t r [i|] lc li tm n l]; unfold_closure;
        destruct (useRAF c); cbn in *; exact IH.
  - destruct s as [a t r [i|] lc li tm n l]; unfold_closure;
      destruct (useRAF c); cbn in *; exact IH.
  - unfold flush. destruct (timerId s); [|exact IH].
    apply trailingEdge_result, IH.
Qed.

(** C10.  In every reachable state a call of the debounced function returns:
    the result of the call of [func] it makes itself, when it makes one (the
    leading edge with [leading] set, or the branch for calls in a tight
    loop); otherwise what the latest earlier call of [func] returned, and
    undefined if there was none. *)
Theorem C10_debounced_returns :
  forall s now this args,
    reachable c s ->
    let r := fst (debounced c now this args s) in
    let s' := snd (debounced c now this args s) in
    if invokes_now c now s then
      invoked s' = mkInvocation now this args :: invoked s
      /\ r = Some (func c this args)
    else
      invoked s' = invoked s
      /\ r = last_result c (invoked s).
Proof.
  intros s now this args Hr.
  pose proof (reachable_result s Hr) as Hres.
  unfold invokes_now, debounced.
  destruct (shouldInvoke c now s);
    destruct s as [a t r [id|] lc li tm n l]; unfold_closure; cbn in *;
    destruct (maxing c), (useRAF c), (leading c); cbn;
    split; try reflexivity; exact Hres.
Qed.

End Results.

Lemma C10_witness :
  invoked (after_calls cfg_100 [call_at 0 "A"] init) = []
  /\ fst (debounced cfg_100 0 None ["A"%string] init) = None.
Proof.
  exact (C10_debounced_returns string unit (list string) cfg_100 init 0 None
           ["A"%string] (reach_init cfg_100)).
Defined.

(** ** The host table *)

Lemma earliest_spec :
  forall l tm,
    earliest l = Some tm ->
    In tm l /\ Forall (fun x => tm_due tm <= tm_due x) l.
Proof.
  induction l as [|x r IH]; intros tm H; cbn in H; [discriminate|].
  destruct (earliest r) as [y|] eqn:E.
  - destruct (IH y eq_refl) as [Hin Hall].
    destruct (tm_due y <? tm_due x) eqn:C; inversion H; subst; clear H.
    + apply Z.ltb_lt in C. split; [right; exact Hin|].
      constructor; [lia | exact Hall].
    + apply Z.ltb_ge in C. split; [left; reflexivity|].
      constructor; [lia|].
      eapply Forall_impl; [|exact Hall]. cbn. intros; lia.
  - inversion H; subst. destruct r as [|z r]; [|cbn in E].
    + split; [left; reflexivity|]. constructor; [lia | constructor].
    + destruct (earliest r) as [y|]; [destruct (tm_due y <? tm_due z)|];
        discriminate.
Qed.

Lemma earliest_none :
  forall l, earliest l = None -> l = [].
Proof.
  intros [|x r] H; [reflexivity|]. cbn in H.
  destruct (earliest r) as [y|]; [destruct (tm_due y <? tm_due x)|];
    discriminate.
Qed.

Lemma has_timer_in :
  forall l tm, In tm l -> has_timer (tm_id tm) l = true.
Proof.
  intros l tm H. unfold has_timer. apply existsb_exists.
  exists tm. split; [exact H | apply Nat.eqb_refl].
Qed.

Lemma drop_timer_in :
  forall id l x, In x (drop_timer id l) <-> In x l /\ tm_id x <> id.
Proof.
  intros id l x. unfold drop_timer. rewrite filter_In.
  rewrite Bool.negb_true_iff, Nat.eqb_neq. reflexivity.
Qed.

Lemma drop_timer_Forall :
  forall (P : Timer -> Prop) id l, Forall P l -> Forall P (drop_timer id l).
Proof.
  intros P id l H. rewrite Forall_forall in *.
  intros x Hx. apply drop_timer_in in Hx. apply H, Hx.
Qed.

Lemma drop_timer_cons :
  forall id x r,
    drop_timer id (x :: r)
    = if Nat.eqb (tm_id x) id then drop_timer id r else x :: drop_timer id r.
Proof.
  intros id x r. unfold drop_timer. cbn.
  destruct (Nat.eqb (tm_id x) id); reflexivity.
Qed.

Lemma drop_timer_absent :
  forall id l, ~ In id (map tm_id l) -> drop_timer id l = l.
Proof.
  induction l as [|x r IH]; intros H; [reflexivity|].
  rewrite drop_timer_cons. cbn in H.
  destruct (Nat.eqb (tm_id x) id) eqn:E.
  - apply Nat.eqb_eq in E. exfalso. apply H. left. exact E.
  - f_equal. apply IH. intros Hin. apply H. right. exact Hin.
Qed.

Lemma drop_timer_NoDup :
  forall id l, NoDup (map tm_id l) -> NoDup (map tm_id (drop_timer id l)).
Proof.
  induction l as [|x r IH]; intros H; [constructor|].
  inversion H as [|? ? Hx Hr]; subst. rewrite drop_timer_cons.
  destruct (Nat.eqb (tm_id x) id); cbn; [apply IH, Hr|].
  constructor; [|apply IH, Hr].
  intros Hin. apply Hx. apply in_map_iff in Hin.
  destruct Hin as [y [Hy Hin]]. apply drop_timer_in in Hin.
  apply in_map_iff. exists y. split; [exact Hy | apply Hin].
Qed.

(** Taking out an outstanding wake-up takes out exactly that one. *)
Lemma drop_timer_split :
  forall t tm l,
    In tm l -> NoDup (map tm_id l) ->
    List.length l = S (List.length (drop_timer (tm_id tm) l))
    /\ backlog t l
       = (Z.to_nat (t + 1 - tm_due tm) + backlog t (drop_timer (tm_id tm) l))%nat.
Proof.
  induction l as [|x r IH]; intros Hin Hnd; [contradiction|].
  inversion Hnd as [|? ? Hx Hr]; subst. rewrite drop_timer_cons.
  destruct Hin as [->|Hin].
  - rewrite Nat.eqb_refl.
    rewrite (drop_timer_absent _ _ Hx). split; reflexivity.
  - destruct (Nat.eqb (tm_id x) (tm_id tm)) eqn:E.
    + apply Nat.eqb_eq in E. exfalso. apply Hx. rewrite E.
      apply in_map. exact Hin.
    + cbn [List.length backlog]. destruct (IH Hin Hr) as [Hl Hb]. split; lia.
Qed.

Lemma backlog_app :
  forall t l x,
    backlog t (l ++ [x]) = (backlog t l + Z.to_nat (t + 1 - tm_due x))%nat.
Proof.
  induction l as [|y r IH]; intros x; cbn; [lia|]. rewrite IH. lia.
Qed.

Lemma backlog_bound :
  forall t l,
    Forall (fun tm => 0 <= tm_due tm) l ->
    (backlog t l <= List.length l * Z.to_nat (t + 1))%nat.
Proof.
  induction l as [|x r IH]; intros H; cbn; [lia|].
  inversion H; subst. specialize (IH H3). lia.
Qed.

Lemma fresh_NoDup :
  forall n d fr l,
    Forall (fun tm => (tm_id tm < n)%nat) l ->
    NoDup (map tm_id l) ->
    NoDup (map tm_id (l ++ [mkTimer n d fr])).
Proof.
  intros n d fr l Hlt Hnd. rewrite map_app. cbn.
  apply NoDup_app; [exact Hnd | constructor; [intros [] | constructor] |].
  intros a Ha [<-|[]]. apply in_map_iff in Ha. destruct Ha as [y [Hy Hin]].
  rewrite Forall_forall in Hlt. specialize (Hlt y Hin). cbn in Hy. lia.
Qed.

(** ** Runs under a [maxWait] ceiling *)

Lemma grows_refl :
  forall {Val This Res} lo (s s' : State Val This Res),
    invoked s' = invoked s -> grows lo s s'.
Proof. intros Val This Res lo s s' H. exists []. split; [exact H | constructor]. Qed.

Lemma grows_trans :
  forall {Val This Res} lo lo1 lo2 (s1 s2 s3 : State Val This Res),
    lo <= lo1 -> lo <= lo2 ->
    grows lo1 s1 s2 -> grows lo2 s2 s3 -> grows lo s1 s3.
Proof.
  intros Val This Res lo lo1 lo2 s1 s2 s3 H1 H2 [n1 [E1 F1]] [n2 [E2 F2]].
  exists (n2 ++ n1). split.
  - rewrite E2, E1. apply app_assoc.
  - apply Forall_app. split.
    + eapply Forall_impl; [|exact F2]. cbn. intros; lia.
    + eapply Forall_impl; [|exact F1]. cbn. intros; lia.
Qed.

Lemma served_then_grows :
  forall {Val This Res} D lo (s1 s2 s3 : State Val This Res),
    served D s1 s2 -> grows lo s2 s3 -> served D s1 s3.
Proof.
  intros Val This Res D lo s1 s2 s3 [n1 [i [E1 [Hi Hd]]]] [n2 [E2 _]].
  exists (n2 ++ n1), i. split; [rewrite E2, E1; apply app_assoc|].
  split; [apply in_or_app; right; exact Hi | exact Hd].
Qed.

Lemma grows_then_served :
  forall {Val This Res} D lo (s1 s2 s3 : State Val This Res),
    grows lo s1 s2 -> served D s2 s3 -> served D s1 s3.
Proof.
  intros Val This Res D lo s1 s2 s3 [n1 [E1 _]] [n2 [i [E2 [Hi Hd]]]].
  exists (n2 ++ n1), i. split; [rewrite E2, E1; apply app_assoc|].
  split; [apply in_or_app; left; exact Hi | exact Hd].
Qed.

Lemma Inv_later :
  forall {Val This Res} w now t (s : State Val This Res),
    Inv w now s -> now <= t ->
    Forall (fun tm => t <= tm_due tm) (timers s) ->
    Inv w t s.
Proof.
  intros Val This Res w now t s [H1 H2 H3 H4 H5 H6] Hle Hdue.
  constructor; try assumption.
  intros lc Hlc. specialize (H4 lc Hlc). lia.
Qed.

Section Ceiling.

Variables Val This Res : Type.
Variable c : Config Val This Res.
Variables w M : Z.
Hypothesis HC : ceiling_config c w M.

Implicit Types s : State Val This Res.

Lemma shouldInvoke_false :
  forall t s,
    shouldInvoke c t s = false ->
    exists lc, lastCallTime s = Some lc
               /\ 0 <= t - lc < w /\ t - lastInvokeTime s < M.
Proof.
  destruct HC as (_ & _ & Httw & Hmax & HmW & _ & _).
  intros t s H. unfold shouldInvoke in H. rewrite Httw, Hmax, HmW in H.
  destruct (lastCallTime s) as [lc|]; cbn in H; [|discriminate].
  exists lc. split; [reflexivity|].
  repeat (apply Bool.orb_false_iff in H; destruct H as [H ?]).
  rewrite Z.leb_gt in *. rewrite Z.ltb_ge in *. lia.
Qed.

(** The ceiling disjunct alone makes [shouldInvoke] hold. *)
Lemma shouldInvoke_ceiling :
  forall t s, lastInvokeTime s + M <= t -> shouldInvoke c t s = true.
Proof.
  destruct HC as (_ & _ & _ & Hmax & HmW & _ & _).
  intros t s H. unfold shouldInvoke. rewrite Hmax, HmW. cbn.
  assert (E : (M <=? t - lastInvokeTime s) = true) by (apply Z.leb_le; lia).
  rewrite E. apply Bool.orb_true_r.
Qed.

(** One run of the wake-up handler at [e], in a table with nothing due
    before [e]. *)
Lemma timerExpired_step :
  forall e s,
    Forall (fun tm => e <= tm_due tm) (timers s) ->
    Forall (fun tm => (tm_id tm < nextId s)%nat) (timers s) ->
    NoDup (map tm_id (timers s)) ->
    (forall lc, lastCallTime s = Some lc -> lc <= e /\ lastInvokeTime s <= e) ->
    Inv w e (snd (timerExpired c e s))
    /\ grows e s (snd (timerExpired c e s))
    /\ (forall t, e <= t ->
          (backlog t (timers (snd (timerExpired c e s)))
           < backlog t (timers s) + Z.to_nat (t + 1 - e))%nat)
    /\ (List.length (timers (snd (timerExpired c e s)))
        <= S (List.length (timers s)))%nat
    /\ (forall D, lastArgs s <> None -> lastInvokeTime s + M <= D -> e <= D ->
          served D s (snd (timerExpired c e s))
          \/ waiting M D (snd (timerExpired c e s))).
Proof.
  intros e s Hdue Hids Hnd Hhist.
  unfold timerExpired.
  destruct (shouldInvoke c e s) eqn:E.
  - destruct HC as (_ & _ & _ & _ & _ & Htr & _).
    unfold trailingEdge. rewrite Htr.
    destruct s as [[a|] th r i lc li tm n l]; cbn in *.
    + split; [|split; [|split; [|split]]].
      * constructor; cbn; try assumption; try discriminate; try reflexivity.
        intros lc0 Hlc. specialize (Hhist lc0 Hlc). lia.
      * exists [mkInvocation e th a]. split; [reflexivity|].
        constructor; [cbn; lia | constructor].
      * intros t Ht. lia.
      * lia.
      * intros D _ _ HD. left.
        exists [mkInvocation e th a], (mkInvocation e th a).
        split; [reflexivity|]. split; [left; reflexivity | exact HD].
    + split; [|split; [|split; [|split]]].
      * constructor; cbn; try assumption; try discriminate; reflexivity.
      * apply grows_refl. reflexivity.
      * intros t Ht. lia.
      * lia.
      * intros D Hn. contradiction.
  - destruct (shouldInvoke_false e s E) as [lc0 [Hlc [Hc Hi]]].
    destruct HC as (Hraf & Hwait & Httw & Hmax & HmW & Htr & Hw).
    unfold startTimer, remainingWait. rewrite Hraf, Hwait, Hmax, HmW.
    destruct s as [a th r i lc li tm n l]; cbn in *. subst lc. cbn.
    assert (Hdue' : e + Z.max 0 (Z.min (w - (e - lc0)) (M - (e - li)))
                    = Z.min (lc0 + w) (li + M)) by lia.
    rewrite Hdue'.
    split; [|split; [|split; [|split]]].
    + constructor; cbn.
      * apply Forall_app. split; [exact Hdue|].
        constructor; [cbn; lia | constructor].
      * apply Forall_app. split.
        -- eapply Forall_impl; [|exact Hids]. cbn. intros; lia.
        -- constructor; [cbn; lia | constructor].
      * apply fresh_NoDup; assumption.
      * exact Hhist.
      * discriminate.
      * intros id Hid. injection Hid as <-.
        exists (mkTimer n (Z.min (lc0 + w) (li + M)) false), lc0.
        split; [apply in_or_app; right; left; reflexivity|].
        split; [reflexivity|]. split; [reflexivity | cbn; lia].
    + apply grows_refl. reflexivity.
    + intros t Ht. rewrite backlog_app. cbn.
      assert (Z.to_nat (t + 1 - Z.min (lc0 + w) (li + M))
              < Z.to_nat (t + 1 - e))%nat by lia.
      lia.
    + rewrite length_app. cbn. lia.
    + intros D Ha HD He. right. unfold waiting. cbn.
      split; [exact Ha|]. split; [exact HD|].
      exists (mkTimer n (Z.min (lc0 + w) (li + M)) false).
      split; [reflexivity|].
      split; [apply in_or_app; right; left; reflexivity | cbn; lia].
Qed.

(** The host running the next wake-up, at its due time. *)
Lemma fire_step :
  forall now s tm0,
    Inv w now s ->
    earliest (timers s) = Some tm0 ->
    now <= tm_due tm0
    /\ Inv w (tm_due tm0) (fire c (tm_due tm0) (tm_id tm0) s)
    /\ grows (tm_due tm0) s (fire c (tm_due tm0) (tm_id tm0) s)
    /\ (forall t, tm_due tm0 <= t ->
          (backlog t (timers (fire c (tm_due tm0) (tm_id tm0) s))
           < backlog t (timers s))%nat)
    /\ (List.length (timers (fire c (tm_due tm0) (tm_id tm0) s))
        <= List.length (timers s))%nat
    /\ (forall D, waiting M D s ->
          served D s (fire c (tm_due tm0) (tm_id tm0) s)
          \/ waiting M D (fire c (tm_due tm0) (tm_id tm0) s)).
Proof.
  intros now s tm0 [H1 H2 H3 H4 H5 H6] He.
  destruct (earliest_spec _ _ He) as [Hin Hmin].
  assert (Hnow : now <= tm_due tm0).
  { rewrite Forall_forall in H1. apply H1, Hin. }
  split; [exact Hnow|].
  unfold fire. rewrite (has_timer_in _ _ Hin).
  destruct s as [a th r i lc li tm n l]; cbn in *.
  destruct (drop_timer_split 0 tm0 tm Hin H3) as [Hlen _].
  destruct (timerExpired_step (tm_due tm0)
              (mkState a th r i lc li (drop_timer (tm_id tm0) tm) n l))
    as (I & G & B & L & W); cbn.
  - apply drop_timer_Forall, Hmin.
  - apply drop_timer_Forall, H2.
  - apply drop_timer_NoDup, H3.
  - intros lc0 Hlc. specialize (H4 lc0 Hlc). lia.
  - split; [exact I|]. split; [exact G|]. split; [|split].
    + intros t Ht.
      destruct (drop_timer_split t tm0 tm Hin H3) as [_ Hb].
      eapply Nat.lt_le_trans; [apply B; exact Ht|]. cbn. lia.
    + eapply Nat.le_trans; [exact L|]. cbn. lia.
    + intros D (Ha & HD & tmc & _ & Hc & Hd). cbn in *.
      apply W; [exact Ha | exact HD |].
      rewrite Forall_forall in Hmin. specialize (Hmin tmc Hc). lia.
Qed.

(** One call of the debounced function at [t]. *)
Lemma debounced_step :
  forall t this args s,
    Inv w t s ->
    Inv w t (snd (debounced c t this args s))
    /\ grows t s (snd (debounced c t this args s))
    /\ (List.length (timers (snd (debounced c t this args s)))
        <= S (List.length (timers s)))%nat
    /\ (forall D, waiting M D s ->
          served D s (snd (debounced c t this args s))
          \/ waiting M D (snd (debounced c t this args s)))
    /\ (served t s (snd (debounced c t this args s))
        \/ waiting M (t + M) (snd (debounced c t this args s))).
Proof.
  intros t this args s [H1 H2 H3 H4 H5 H6].
  pose proof (shouldInvoke_false t s) as Hfalse.
  destruct HC as (Hraf & Hwait & Httw & Hmax & HmW & Htr & Hw).
  unfold debounced.
  assert (Hnew : forall (tm : list Timer) (n : nat),
             Forall (fun x => t <= tm_due x) tm ->
             Forall (fun x => (tm_id x < n)%nat) tm ->
             NoDup (map tm_id tm) ->
             Forall (fun x => t <= tm_due x) (tm ++ [mkTimer n (t + w) false])
             /\ Forall (fun x => (tm_id x < S n)%nat)
                       (tm ++ [mkTimer n (t + w) false])
             /\ NoDup (map tm_id (tm ++ [mkTimer n (t + w) false]))).
  { intros tm n F1 F2 F3. split; [|split].
    - apply Forall_app. split; [exact F1|].
      constructor; [cbn; lia | constructor].
    - apply Forall_app. split.
      + eapply Forall_impl; [|exact F2]. cbn. intros; lia.
      + constructor; [cbn; lia | constructor].
    - apply fresh_NoDup; assumption. }
  destruct (shouldInvoke c t s) eqn:E;
    destruct s as [a th r [id|] lc li tm n l]; cbn in *.
  - (* a wake-up is held and [shouldInvoke] holds: the tight-loop branch *)
    rewrite Hmax. unfold startTimer. rewrite Hraf, Httw. cbn.
    rewrite (Z.max_r 0 w) by lia.
    destruct (Hnew tm n H1 H2 H3) as (F1 & F2 & F3).
    split; [|split; [|split; [|split]]].
    + constructor; cbn; try assumption; try discriminate.
      * intros lc0 Hlc. injection Hlc as <-. lia.
      * intros id0 Hid. injection Hid as <-.
        exists (mkTimer n (t + w) false), t.
        split; [apply in_or_app; right; left; reflexivity|].
        split; [reflexivity|]. split; [reflexivity | cbn; lia].
    + exists [mkInvocation t this args]. split; [reflexivity|].
      constructor; [cbn; lia | constructor].
    + rewrite length_app. cbn. lia.
    + intros D (_ & _ & tmc & _ & Hc & Hd). cbn in *. left.
      exists [mkInvocation t this args], (mkInvocation t this args).
      split; [reflexivity|]. split; [left; reflexivity|]. cbn.
      rewrite Forall_forall in H1. specialize (H1 tmc Hc). lia.
    + left. exists [mkInvocation t this args], (mkInvocation t this args).
      split; [reflexivity|]. split; [left; reflexivity | cbn; lia].
  - (* no wake-up is held and [shouldInvoke] holds: the leading edge *)
    unfold leadingEdge, startTimer. rewrite Hraf, Httw. cbn.
    rewrite (Z.max_r 0 w) by lia.
    destruct (Hnew tm n H1 H2 H3) as (F1 & F2 & F3).
    assert (Hpend : forall id0, Some n = Some id0 ->
               exists tm0 lc0, In tm0 (tm ++ [mkTimer n (t + w) false])
                               /\ tm_id tm0 = id0 /\ Some t = Some lc0
                               /\ tm_due tm0 <= lc0 + w).
    { intros id0 Hid. injection Hid as <-.
      exists (mkTimer n (t + w) false), t.
      split; [apply in_or_app; right; left; reflexivity|].
      split; [reflexivity|]. split; [reflexivity | cbn; lia]. }
    destruct (leading c); cbn.
    + split; [|split; [|split; [|split]]].
      * constructor; cbn; try assumption; try discriminate.
        intros lc0 Hlc. injection Hlc as <-. lia.
      * exists [mkInvocation t this args]. split; [reflexivity|].
        constructor; [cbn; lia | constructor].
      * rewrite length_app. cbn. lia.
      * intros D (_ & _ & tmc & Hid & _). discriminate Hid.
      * left. exists [mkInvocation t this args], (mkInvocation t this args).
        split; [reflexivity|]. split; [left; reflexivity | cbn; lia].
    + split; [|split; [|split; [|split]]].
      * constructor; cbn; try assumption; try discriminate.
        intros lc0 Hlc. injection Hlc as <-. lia.
      * apply grows_refl. reflexivity.
      * rewrite length_app. cbn. lia.
      * intros D (_ & _ & tmc & Hid & _). discriminate Hid.
      * right. unfold waiting. cbn. split; [discriminate|]. split; [lia|].
        exists (mkTimer n (t + w) false). split; [reflexivity|].
        split; [apply in_or_app; right; left; reflexivity | cbn; lia].
  - (* a wake-up is held and [shouldInvoke] fails: the call is recorded *)
    destruct (Hfalse eq_refl) as [lc0 [Hlc [Hc Hi]]]. subst lc.
    destruct (H4 lc0 eq_refl) as [Hlc0 Hli].
    destruct (H6 id eq_refl) as (tmc & lc1 & Hin & Hid & Hlc1 & Hd).
    injection Hlc1 as <-.
    split; [|split; [|split; [|split]]].
    + constructor; cbn; try assumption; try discriminate.
      * intros lc1 Hlc1. injection Hlc1 as <-. lia.
      * intros id0 Hid0. injection Hid0 as <-.
        exists tmc, t. split; [exact Hin|]. split; [exact Hid|].
        split; [reflexivity | lia].
    + apply grows_refl. reflexivity.
    + lia.
    + intros D (_ & HD & W). right. unfold waiting. cbn.
      split; [discriminate|]. split; [exact HD | exact W].
    + right. unfold waiting. cbn. split; [discriminate|]. split; [lia|].
      exists tmc. split; [rewrite Hid; reflexivity|].
      split; [exact Hin | lia].
  - (* no wake-up is held and [shouldInvoke] fails: a wake-up is registered *)
    destruct (Hfalse eq_refl) as [lc0 [Hlc [Hc Hi]]]. subst lc.
    destruct (H4 lc0 eq_refl) as [Hlc0 Hli].
    unfold startTimer. rewrite Hraf, Httw. cbn.
    rewrite (Z.max_r 0 w) by lia.
    destruct (Hnew tm n H1 H2 H3) as (F1 & F2 & F3).
    split; [|split; [|split; [|split]]].
    + constructor; cbn; try assumption; try discriminate.
      * intros lc1 Hlc1. injection Hlc1 as <-. lia.
      * intros id0 Hid. injection Hid as <-.
        exists (mkTimer n (t + w) false), t.
        split; [apply in_or_app; right; left; reflexivity|].
        split; [reflexivity|]. split; [reflexivity | cbn; lia].
    + apply grows_refl. reflexivity.
    + rewrite length_app. cbn. lia.
    + intros D (_ & _ & tmc & Hid & _). discriminate Hid.
    + right. unfold waiting. cbn. split; [discriminate|]. split; [lia|].
      exists (mkTimer n (t + w) false). split; [reflexivity|].
      split; [apply in_or_app; right; left; reflexivity | cbn; lia].
Qed.

Lemma advance_eq :
  forall fuel t s,
    advance c fuel t s
    = match earliest (timers s) with
      | None => Some s
      | Some tm =>
          if tm_due tm <=? t then
            match fuel with
            | O => None
            | S fuel' => advance c fuel' t (fire c (tm_due tm) (tm_id tm) s)
            end
          else Some s
      end.
Proof. intros fuel t s. destruct fuel; reflexivity. Qed.

(** With fuel for the backlog, the host runs every wake-up due by [t] and
    stops. *)
Lemma advance_spec :
  forall fuel t now s,
    Inv w now s -> now <= t ->
    (backlog t (timers s) <= fuel)%nat ->
    exists s',
      advance c fuel t s = Some s'
      /\ Inv w t s'
      /\ Forall (fun tm => t < tm_due tm) (timers s')
      /\ grows now s s'
      /\ (List.length (timers s') <= List.length (timers s))%nat
      /\ (forall D, waiting M D s -> served D s s' \/ waiting M D s').
Proof.
  assert (Hstop : forall t now s,
             Inv w now s -> now <= t ->
             Forall (fun tm => t < tm_due tm) (timers s) ->
             Inv w t s
             /\ Forall (fun tm => t < tm_due tm) (timers s)
             /\ grows now s s
             /\ (List.length (timers s) <= List.length (timers s))%nat
             /\ (forall D, waiting M D s -> served D s s \/ waiting M D s)).
  { intros t now s HI Hle Hall. split; [|split; [|split; [|split]]].
    - apply (Inv_later w now t s HI Hle).
      eapply Forall_impl; [|exact Hall]. cbn. intros; lia.
    - exact Hall.
    - apply grows_refl. reflexivity.
    - lia.
    - intros D HW. right. exact HW. }
  induction fuel as [|fuel IH]; intros t now s HI Hle Hb;
    rewrite advance_eq; destruct (earliest (timers s)) as [tm0|] eqn:He.
  - destruct (earliest_spec _ _ He) as [Hin Hmin].
    destruct (tm_due tm0 <=? t) eqn:C.
    + apply Z.leb_le in C.
      destruct (drop_timer_split t tm0 (timers s) Hin (inv_nodup _ _ _ HI))
        as [_ Hbl]. lia.
    + apply Z.leb_gt in C. exists s. split; [reflexivity|].
      apply (Hstop t now s HI Hle).
      eapply Forall_impl; [|exact Hmin]. cbn. intros; lia.
  - exists s. split; [reflexivity|]. apply (Hstop t now s HI Hle).
    rewrite (earliest_none _ He). constructor.
  - destruct (earliest_spec _ _ He) as [Hin Hmin].
    destruct (tm_due tm0 <=? t) eqn:C.
    + apply Z.leb_le in C.
      destruct (fire_step now s tm0 HI He) as (Hnow & I1 & G1 & B1 & L1 & W1).
      specialize (B1 t C).
      destruct (IH t (tm_due tm0) _ I1 C) as (s' & E & I2 & F2 & G2 & L2 & W2);
        [lia|].
      exists s'. split; [exact E|]. split; [exact I2|]. split; [exact F2|].
      split; [|split].
      * apply (grows_trans now _ _ s _ s' Hnow Hnow G1 G2).
      * lia.
      * intros D HW. destruct (W1 D HW) as [S1|HW1].
        -- left. apply (served_then_grows D _ s _ s' S1 G2).
        -- destruct (W2 D HW1) as [S2|HW2]; [left | right; exact HW2].
           apply (grows_then_served D _ s _ s' G1 S2).
    + apply Z.leb_gt in C. exists s. split; [reflexivity|].
      apply (Hstop t now s HI Hle).
      eapply Forall_impl; [|exact Hmin]. cbn. intros; lia.
  - exists s. split; [reflexivity|]. apply (Hstop t now s HI Hle).
    rewrite (earliest_none _ He). constructor.
Qed.

Lemma ordered_end_time :
  forall (calls : list (Call Val This)) now,
    ordered now calls -> now <= end_time now calls.
Proof.
  induction calls as [|k rest IH]; intros now H; cbn in *; [lia|].
  destruct H as [Hk Hrest]. specialize (IH _ Hrest). lia.
Qed.

Lemma Inv_backlog :
  forall now t s,
    Inv w now s -> 0 <= now ->
    (backlog t (timers s) <= List.length (timers s) * Z.to_nat (t + 1))%nat.
Proof.
  intros now t s HI Hnow. apply backlog_bound.
  eapply Forall_impl; [|exact (inv_due _ _ _ HI)]. cbn. intros; lia.
Qed.

(** With fuel for every wake-up the calls can leave due, a run of calls made
    in clock order goes through. *)
Lemma run_spec :
  forall calls fuel H now s,
    Inv w now s -> 0 <= now ->
    ordered now calls -> end_time now calls <= H ->
    ((List.length (timers s) + List.length calls) * Z.to_nat (H + 1) <= fuel)%nat ->
    exists s',
      run c fuel calls s = Some s'
      /\ Inv w (end_time now calls) s'
      /\ grows now s s'
      /\ (List.length (timers s') <= List.length (timers s) + List.length calls)%nat
      /\ (forall D, waiting M D s -> served D s s' \/ waiting M D s').
Proof.
  induction calls as [|k rest IH]; intros fuel H now s HI Hnow Hord Hend Hfuel.
  - exists s. cbn. split; [reflexivity|]. split; [exact HI|].
    split; [apply grows_refl; reflexivity|]. split; [lia|].
    intros D HW. right. exact HW.
  - cbn [run end_time List.length] in *. destruct Hord as [Hk Hrest].
    pose proof (ordered_end_time rest _ Hrest) as Hkend.
    assert (HX : (Z.to_nat (call_time k + 1) <= Z.to_nat (H + 1))%nat) by lia.
    destruct (advance_spec fuel (call_time k) now s HI Hk)
      as (s1 & E1 & I1 & _ & G1 & L1 & W1).
    { pose proof (Inv_backlog now (call_time k) s HI Hnow). nia. }
    rewrite E1.
    destruct (debounced_step (call_time k) (call_this k) (call_args k) s1 I1)
      as (I2 & G2 & L2 & W2 & _).
    destruct (IH fuel H (call_time k) _ I2) as (s' & E3 & I3 & G3 & L3 & W3);
      [lia | exact Hrest | exact Hend | nia |].
    exists s'. split; [exact E3|]. split; [exact I3|]. split; [|split].
    + eapply grows_trans; [| exact Hk | | exact G3]; [apply Z.le_refl|].
      eapply grows_trans; [| exact Hk | exact G1 | exact G2]. apply Z.le_refl.
    + lia.
    + intros D HW. destruct (W1 D HW) as [S1|HW1].
      * left. eapply served_then_grows; [|exact G3].
        eapply served_then_grows; [exact S1 | exact G2].
      * destruct (W2 D HW1) as [S2|HW2].
        -- left. eapply served_then_grows; [|exact G3].
           eapply grows_then_served; [exact G1 | exact S2].
        -- destruct (W3 D HW2) as [S3|HW3]; [left | right; exact HW3].
           eapply grows_then_served; [|exact S3].
           eapply grows_trans; [| exact Hk | exact G1 | exact G2].
           apply Z.le_refl.
Qed.

Lemma run_app :
  forall pre post fuel s,
    run c fuel (pre ++ post) s
    = match run c fuel pre s with
      | Some s1 => run c fuel post s1
      | None => None
      end.
Proof.
  induction pre as [|k pre IH]; intros post fuel s; cbn; [reflexivity|].
  destruct (advance c fuel (call_time k) s); [apply IH | reflexivity].
Qed.

Lemma ordered_app :
  forall (pre post : list (Call Val This)) k now,
    ordered now (pre ++ k :: post) ->
    ordered now pre
    /\ end_time now pre <= call_time k
    /\ ordered (call_time k) post
    /\ end_time now (pre ++ k :: post) = end_time (call_time k) post.
Proof.
  induction pre as [|x pre IH]; intros post k now H; cbn in *.
  - destruct H as [Hk Hp]. repeat split; assumption.
  - destruct H as [Hx Hr]. destruct (IH post k _ Hr) as (A & B & C & D).
    repeat split; assumption.
Qed.

Lemma Inv_init : Inv w 0 (@init Val This Res).
Proof.
  constructor; cbn; try constructor; try discriminate; reflexivity.
Qed.

(** Every call is followed, within [M] of it, by a call of [func]. *)
Lemma response_bound :
  forall (pre post : list (Call Val This)) k fuel horizon,
    ordered 0 (pre ++ k :: post) ->
    end_time 0 (pre ++ k :: post) <= horizon ->
    call_time k + M <= horizon ->
    (List.length (pre ++ k :: post) * Z.to_nat (horizon + 1) <= fuel)%nat ->
    exists s1 s new i,
      match run c fuel pre init with
      | Some s0 => advance c fuel (call_time k) s0
      | None => None
      end = Some s1
      /\ run_until c fuel (pre ++ k :: post) horizon init = Some s
      /\ invoked s = new ++ invoked s1
      /\ In i new
      /\ call_time k <= inv_time i <= call_time k + M.
Proof.
  intros pre post k fuel horizon Hord Hend HM Hfuel.
  assert (HM0 : 0 <= M) by (destruct HC as (_ & _ & _ & _ & _ & _ & ?); lia).
  destruct (ordered_app pre post k 0 Hord) as (Opre & Ek & Opost & Eend).
  rewrite Eend in Hend. rewrite length_app in Hfuel. cbn [List.length] in Hfuel.
  pose proof (ordered_end_time pre 0 Opre) as Hpre0.
  pose proof (ordered_end_time post _ Opost) as Hpost0.
  destruct (run_spec pre fuel horizon 0 init Inv_init)
    as (s0 & E0 & I0 & G0 & L0 & _);
    [lia | exact Opre | lia | cbn; nia |].
  cbn [timers init List.length] in L0.
  destruct (advance_spec fuel (call_time k) _ s0 I0 Ek)
    as (s1 & E1 & I1 & _ & G1 & L1 & _).
  { pose proof (Inv_backlog _ (call_time k) s0 I0 Hpre0).
    assert (Z.to_nat (call_time k + 1) <= Z.to_nat (horizon + 1))%nat by lia.
    nia. }
  destruct (debounced_step (call_time k) (call_this k) (call_args k) s1 I1)
    as (I2 & G2 & L2 & _ & R2).
  destruct (run_spec post fuel horizon (call_time k) _ I2)
    as (s3 & E3 & I3 & G3 & L3 & W3);
    [lia | exact Opost | exact Hend | nia |].
  destruct (advance_spec fuel horizon _ s3 I3 Hend)
    as (s & E4 & I4 & F4 & G4 & L4 & W4).
  { pose proof (Inv_backlog _ horizon s3 I3). nia. }
  assert (G : grows (call_time k) s1 s).
  { eapply grows_trans; [| | | exact G4]; [apply Z.le_refl | exact Hpost0 |].
    eapply grows_trans; [| | exact G2 | exact G3]; apply Z.le_refl. }
  assert (S : served (call_time k + M) s1 s).
  { destruct R2 as [S2|HW2].
    - assert (S2' : served (call_time k + M) s1
                      (snd (debounced c (call_time k) (call_this k)
                              (call_args k) s1))).
      { destruct S2 as (n & i & En & Hi & Hd). exists n, i.
        split; [exact En|]. split; [exact Hi | lia]. }
      eapply served_then_grows; [|exact G4].
      eapply served_then_grows; [exact S2' | exact G3].
    - destruct (W3 _ HW2) as [S3|HW3].
      + eapply served_then_grows; [|exact G4].
        eapply grows_then_served; [exact G2 | exact S3].
      + destruct (W4 _ HW3) as [S4|HW4].
        * eapply grows_then_served; [|exact S4].
          eapply grows_trans; [| | exact G2 | exact G3]; apply Z.le_refl.
        * exfalso. destruct HW4 as (_ & _ & tmc & _ & Hin & Hd).
          rewrite Forall_forall in F4. specialize (F4 tmc Hin). lia. }
  destruct G as (new & En & Fn). destruct S as (new' & i & En' & Hi & Hd).
  assert (new' = new).
  { rewrite En in En'. apply app_inv_tail in En'. symmetry. exact En'. }
  subst new'.
  exists s1, s, new, i. split; [rewrite E0; exact E1|].
  split.
  - unfold run_until. rewrite run_app, E0. cbn [run]. rewrite E1, E3. exact E4.
  - split; [exact En|]. split; [exact Hi|].
    rewrite Forall_forall in Fn. specialize (Fn i Hi). lia.
Qed.

(** A call that finds a wake-up held and the ceiling reached calls [func]
    before it returns. *)
Lemma ceiling_call_invokes :
  forall s now this args,
    pending s = true ->
    lastInvokeTime s + M <= now ->
    invoked (snd (debounced c now this args s))
    = mkInvocation now this args :: invoked s.
Proof.
  intros s now this args Hp Hc.
  pose proof (shouldInvoke_ceiling now s Hc) as Hs.
  destruct HC as (_ & _ & _ & Hmax & _).
  unfold debounced. rewrite Hs.
  destruct s as [a th r [id|] lc li tm n l]; [|discriminate Hp].
  cbn. rewrite Hmax. unfold startTimer.
  destruct (useRAF c); reflexivity.
Qed.

(** C2, as the code has it.  For a scheduler over [setTimeout] with delay
    [w], a [maxWait] of [M] and the trailing edge enabled, on a host with
    exact timers and a clock that does not go backwards:
    - whatever the spacing of the calls, every call is followed by a call of
      [func] made at or after it and at most [M] ms after it, so no call is
      deferred for more than [M] (the run goes through with fuel for
      [horizon + 1] wake-ups per call);
    - a call that arrives while a wake-up is held, [M] or more after
      [lastInvokeTime], calls [func] before it returns.
    Two consecutive calls of [func] may be more than [M] apart. *)
Theorem C2_deferral_bounded :
  (forall (pre post : list (Call Val This)) k fuel horizon,
      ordered 0 (pre ++ k :: post) ->
      end_time 0 (pre ++ k :: post) <= horizon ->
      call_time k + M <= horizon ->
      (List.length (pre ++ k :: post) * Z.to_nat (horizon + 1) <= fuel)%nat ->
      exists s1 s new i,
        match run c fuel pre init with
        | Some s0 => advance c fuel (call_time k) s0
        | None => None
        end = Some s1
        /\ run_until c fuel (pre ++ k :: post) horizon init = Some s
        /\ invoked s = new ++ invoked s1
        /\ In i new
        /\ call_time k <= inv_time i <= call_time k + M)
  /\ (forall s now this args,
        pending s = true ->
        lastInvokeTime s + M <= now ->
        invoked (snd (debounced c now this args s))
        = mkInvocation now this args :: invoked s).
Proof.
  split; [exact response_bound | exact ceiling_call_invokes].
Qed.

End Ceiling.

(** [debounce] with a delay and a [maxWait] option builds such a scheduler,
    unless [trailing] is switched off. *)
Lemma debounce_ceiling_config :
  forall {Val This Res} (fn : option This -> list Val -> Res) (w : Z)
         (lead : option bool) (m : option Z) (hasRAF : bool),
    0 <= w ->
    exists c : Config Val This Res,
      debounce (Callable fn) (Some w) (Some (mkOptions lead (Some m) None)) hasRAF
      = inr (c, init)
      /\ ceiling_config c w (Z.max (to_number_or_0 m) w).
Proof.
  intros Val This Res fn w lead m hasRAF Hw.
  eexists. split; [reflexivity|]. unfold ceiling_config. cbn.
  repeat split; try lia.
Qed.

(** C2, as the spec has it, fails.  [debounce(echo, 100, {maxWait: 100})]
    called every 60 ms from 0 to 300 on a host with exact timers calls [echo]
    at 100 and at 220, 120 ms apart; and its first call, made at time 1000
    when [lastInvokeTime] is 0, calls nothing. *)
Lemma C2_counterexample :
  option_map history
    (run_until (cfg_100_max 100) 2 (calls_every 60 6) 300 init)
  = Some [(100, ["x"%string]); (220, ["x"%string])]
  /\ option_map (fun s => gaps_within 100 (map fst (history s)))
       (run_until (cfg_100_max 100) 2 (calls_every 60 6) 300 init)
     = Some false
  /\ ceiling_hit (cfg_100_max 100) 1000 init = true
  /\ invoked (snd (debounced (cfg_100_max 100) 1000 None ["x"%string] init)) = [].
Proof. repeat split. Qed.

Lemma C2_witness :
  (exists s1 s new i,
      match run (cfg_100_max 100) 2406 (calls_every 60 2) init with
      | Some s0 => advance (cfg_100_max 100) 2406 120 s0
      | None => None
      end = Some s1
      /\ run_until (cfg_100_max 100) 2406 (calls_every 60 6) 400 init = Some s
      /\ invoked s = new ++ invoked s1
      /\ In i new
      /\ 120 <= inv_time i <= 120 + 100)
  /\ invoked (snd (debounced (cfg_100_max 100) 150 None ["B"%string]
                     (after_calls (cfg_100_max 100) [call_at 0 "A"] init)))
     = [mkInvocation 150 None ["B"%string]].
Proof.
  assert (HC : ceiling_config (cfg_100_max 100) 100 100).
  { unfold ceiling_config. cbn. repeat split; try reflexivity; lia. }
  destruct (C2_deferral_bounded string unit (list string) (cfg_100_max 100)
              100 100 HC) as [A B].
  split.
  - apply (A (calls_every 60 2) (skipn 3 (calls_every 60 6)) (call_at 120 "x")
             2406%nat 400).
    + cbn. repeat split; lia.
    + cbn. lia.
    + cbn. lia.
    + apply Nat.leb_le. vm_compute. reflexivity.
  - apply (B (after_calls (cfg_100_max 100) [call_at 0 "A"] init) 150 None
             ["B"%string]).
    + reflexivity.
    + cbn. lia.
Defined.

(** * Further properties of [debounce] *)

Lemma has_timer_app :
  forall id l tm, tm_id tm = id -> has_timer id (l ++ [tm]) = true.
Proof.
  intros id l tm H. unfold has_timer. rewrite existsb_app. cbn.
  rewrite H, Nat.eqb_refl. apply Bool.orb_true_iff. right. reflexivity.
Qed.

Section Discipline.

Variables Val This Res : Type.
Variable c : Config Val This Res.

Implicit Types s : State Val This Res.

(** What the closure leaves true of any state, whatever the state was:
    after a call a handle is held, and a handle newly stored is in the
    host table. *)
Lemma debounced_holds :
  forall now this args s,
    (forall id, timerId s = Some id -> has_timer id (timers s) = true) ->
    exists id,
      timerId (snd (debounced c now this args s)) = Some id
      /\ has_timer id (timers (snd (debounced c now this args s))) = true.
Proof.
  intros now this args s H. unfold debounced.
  destruct (shouldInvoke c now s);
    destruct s as [a t r [id|] lc li tm n l]; unfold_closure; cbn in *;
    destruct (maxing c), (useRAF c), (leading c); cbn;
    try (exists n; split; [reflexivity | apply has_timer_app; reflexivity]);
    exists id; (split; [reflexivity | apply H; reflexivity]).
Qed.

Lemma timerExpired_holds :
  forall now s id,
    timerId (snd (timerExpired c now s)) = Some id ->
    has_timer id (timers (snd (timerExpired c now s))) = true.
Proof.
  intros now s id. unfold timerExpired.
  destruct (shouldInvoke c now s).
  - destruct s as [[a|] t r i lc li tm n l]; unfold_closure; cbn;
      destruct (trailing c); cbn; discriminate.
  - destruct s as [a t r [i|] lc li tm n l]; unfold_closure;
      destruct (useRAF c); cbn; intros H; injection H as <-;
      apply has_timer_app; reflexivity.
Qed.

Lemma reachable_holds :
  forall s, reachable c s ->
            forall id, timerId s = Some id -> has_timer id (timers s) = true.
Proof.
  intros s H.
  induction H as [|now this args s _ IH|now id0 s _ IH|s _ IH|now s _ IH];
    intros id Hid.
  - discriminate Hid.
  - destruct (debounced_holds now this args s IH) as [id' [E Hh]].
    rewrite E in Hid. injection Hid as <-. exact Hh.
  - unfold fire in *. destruct (has_timer id0 (timers s)).
    + apply timerExpired_holds. exact Hid.
    + apply IH, Hid.
  - exfalso. destruct s as [a t r [i|] lc li tm n l]; unfold_closure;
      destruct (useRAF c); cbn in Hid; discriminate.
  - unfold flush in *. destruct (timerId s) as [i0|] eqn:E.
    + exfalso. destruct s as [[a|] t r i lc li tm n l]; unfold_closure;
        destruct (trailing c); cbn in Hid; discriminate.
    + cbn in Hid. rewrite E in Hid. discriminate.
Qed.

(** X1.  In every reachable state the handle the closure holds, if it holds
    one, is a wake-up the host really has outstanding: [pending()] is never
    true with nothing scheduled.  And a call in a reachable state always
    leaves a handle held. *)
Theorem X1_pending_is_scheduled :
  forall s,
    reachable c s ->
    (forall id, timerId s = Some id -> has_timer id (timers s) = true)
    /\ (forall now this args,
           pending (snd (debounced c now this args s)) = true).
Proof.
  intros s H. split; [apply reachable_holds, H|].
  intros now this args.
  destruct (debounced_holds now this args s (reachable_holds s H)) as [id [E _]].
  unfold pending. rewrite E. reflexivity.
Qed.


(** With no arguments pending, nothing but a call makes the closure call
    [func]. *)
Lemma quiet_step :
  forall s e,
    lastArgs s = None -> is_call e = false ->
    lastArgs (step c s e) = None /\ invoked (step c s e) = invoked s.
Proof.
  intros s e Ha He. destruct e as [now this args|now id| |now]; cbn in *.
  - discriminate.
  - unfold fire. destruct (has_timer id (timers s)); [|split; [exact Ha | reflexivity]].
    unfold timerExpired.
    destruct (shouldInvoke c now _);
      destruct s as [a t r [i|] lc li tm n l]; cbn in Ha; subst a;
      unfold_closure; destruct (trailing c), (useRAF c); cbn;
      split; reflexivity.
  - destruct s as [a t r [i|] lc li tm n l]; cbn in Ha; subst a;
      unfold_closure; destruct (useRAF c); cbn; split; reflexivity.
  - destruct s as [a t r [i|] lc li tm n l]; cbn in Ha; subst a;
      unfold_closure; destruct (trailing c); cbn; split; reflexivity.
Qed.

Lemma quiet_exec :
  forall events s,
    lastArgs s = None -> forallb (fun e => negb (is_call e)) events = true ->
    lastArgs (exec c events s) = None /\ invoked (exec c events s) = invoked s.
Proof.
  induction events as [|e r IH]; intros s Ha Hall; cbn in *.
  - split; [exact Ha | reflexivity].
  - apply Bool.andb_true_iff in Hall. destruct Hall as [He Hr].
    apply Bool.negb_true_iff in He.
    destruct (quiet_step s e Ha He) as [Ha' Hi'].
    destruct (IH _ Ha' Hr) as [A B]. split; [exact A|].
    unfold exec in B. rewrite B. exact Hi'.
Qed.

(** In a reachable state with no handle held no arguments are pending. *)
Lemma reachable_idle :
  forall s, reachable c s -> timerId s = None -> lastArgs s = None.
Proof.
  intros s H.
  induction H as [|now this args s Hr IH|now id0 s _ IH|s _ IH|now s _ IH];
    intros Hid.
  - reflexivity.
  - destruct (debounced_holds now this args s (reachable_holds s Hr)) as [id [E _]].
    rewrite E in Hid. discriminate.
  - unfold fire in *. destruct (has_timer id0 (timers s)); [|apply IH, Hid].
    unfold timerExpired in *.
    destruct (shouldInvoke c now _).
    + destruct s as [[a|] t r i lc li tm n l]; unfold_closure;
        destruct (trailing c); reflexivity.
    + exfalso. destruct s as [a t r [i|] lc li tm n l]; unfold_closure;
        destruct (useRAF c); cbn in Hid; discriminate.
  - destruct s as [a t r [i|] lc li tm n l]; unfold_closure;
      destruct (useRAF c); reflexivity.
  - unfold flush in *. destruct (timerId s) as [i0|] eqn:E.
    + destruct s as [[a|] t r i lc li tm n l]; unfold_closure;
        destruct (trailing c); reflexivity.
    + apply IH. reflexivity.
Qed.

(** X2.  After [cancel()], and after [flush()], nothing calls [func] until
    the debounced function is called again: whatever wake-ups are still in
    the host table and whenever they run, and however often [cancel] and
    [flush] are repeated, the log stays as it was. *)
Theorem X2_silent_until_next_call :
  forall s events now,
    reachable c s ->
    forallb (fun e => negb (is_call e)) events = true ->
    invoked (exec c events (cancel c s)) = invoked s
    /\ invoked (exec c events (snd (flush c now s)))
       = invoked (snd (flush c now s)).
Proof.
  intros s events now Hr Hall. split.
  - destruct (quiet_exec events (cancel c s)) as [_ H]; [|exact Hall|].
    + destruct s as [a t r [i|] lc li tm n l]; unfold_closure;
        destruct (useRAF c); reflexivity.
    + rewrite H.
      destruct s as [a t r [i|] lc li tm n l]; unfold_closure;
        destruct (useRAF c); reflexivity.
  - destruct (quiet_exec events (snd (flush c now s))) as [_ H];
      [|exact Hall | exact H].
    unfold flush. destruct (timerId s) as [i0|] eqn:Hid.
    + destruct s as [[a|] t r i lc li tm n l]; unfold_closure;
        destruct (trailing c); reflexivity.
    + apply (reachable_idle s Hr Hid).
Qed.

Lemma accounted_step :
  forall P s e,
    accounted P s -> accounted (P ++ payloads [e]) (step c s e).
Proof.
  intros P s e (HF & HA & HL). unfold accounted.
  assert (HF' : forall Q, Forall (fun i => In (inv_this i, inv_args i) (P ++ Q))
                             (invoked s)).
  { intros Q. eapply Forall_impl; [|exact HF]. cbn. intros i Hi.
    apply in_or_app. left. exact Hi. }
  destruct e as [now this args|now id| |now]; cbn [step payloads].
  - specialize (HF' [(this, args)]).
    assert (Hin : In (this, args) (P ++ [(this, args)])).
    { apply in_or_app. right. left. reflexivity. }
    assert (HL' : (List.length (invoked s) <= List.length P)%nat) by lia.
    unfold debounced.
    destruct (shouldInvoke c now s);
      destruct s as [a t r [i|] lc li tm n l]; unfold_closure; cbn in *;
      destruct (maxing c), (useRAF c), (leading c); cbn;
      (split; [|split]);
      try (constructor; [exact Hin | exact HF']); try exact HF';
      try discriminate;
      try (intros a0 E; injection E as <-; exact Hin);
      rewrite length_app; cbn; lia.
  - rewrite app_nil_r. unfold fire.
    destruct (has_timer id (timers s)); [|split; [exact HF | split; assumption]].
    unfold timerExpired.
    destruct (shouldInvoke c now _);
      destruct s as [[a|] t r [i|] lc li tm n l]; unfold_closure; cbn in *;
      destruct (trailing c), (useRAF c); cbn;
      (split; [|split]);
      try (constructor; [apply HA; reflexivity | exact HF]); try exact HF;
      try discriminate; try exact HA; lia.
  - rewrite app_nil_r.
    destruct s as [[a|] t r [i|] lc li tm n l]; unfold_closure; cbn in *;
      destruct (useRAF c); cbn; (split; [|split]);
      try exact HF; try discriminate; lia.
  - rewrite app_nil_r.
    destruct s as [[a|] t r [i|] lc li tm n l]; unfold_closure; cbn in *;
      destruct (trailing c); cbn; (split; [|split]);
      try (constructor; [apply HA; reflexivity | exact HF]); try exact HF;
      try discriminate; try exact HA; lia.
Qed.

Lemma payloads_cons :
  forall (e : Event Val This) r, payloads (e :: r) = payloads [e] ++ payloads r.
Proof. intros [now this args|now id| |now] r; reflexivity. Qed.

Lemma accounted_exec :
  forall events P s,
    accounted P s -> accounted (P ++ payloads events) (exec c events s).
Proof.
  induction events as [|e r IH]; intros P s H; cbn [exec fold_left].
  - cbn. rewrite app_nil_r. exact H.
  - rewrite payloads_cons, app_assoc. apply IH, accounted_step, H.
Qed.

(** X3.  Whatever the interleaving of calls, wake-ups (late, early or stale),
    cancels and flushes, and whatever the clock does, [func] is never called
    more often than the debounced function was, and every call of [func]
    carries the [this] and the arguments of one of those calls. *)
Theorem X3_never_amplifies :
  forall events,
    (List.length (invoked (exec c events init))
     <= List.length (payloads events))%nat
    /\ Forall (fun i => In (inv_this i, inv_args i) (payloads events))
              (invoked (exec c events init)).
Proof.
  intros events.
  destruct (accounted_exec events [] init) as (HF & _ & HL).
  - split; [constructor | split; [discriminate | cbn; lia]].
  - cbn in *. split; [lia | exact HF].
Qed.

Lemma drop_own_timer :
  forall id d fr, drop_timer id [mkTimer id d fr] = [].
Proof.
  intros id d fr. rewrite drop_timer_cons. cbn.
  rewrite Nat.eqb_refl. reflexivity.
Qed.

Lemma tidy_step :
  forall s e,
    useRAF c = true \/ maxing c = false ->
    tidy s -> is_flush e = false -> tidy (step c s e).
Proof.
  intros s e Hc Ht He. unfold tidy in *.
  destruct e as [now this args|now id| |now]; cbn [step] in *;
    [| | |discriminate He].
  - unfold debounced.
    destruct (shouldInvoke c now s);
      destruct s as [a t r [i|] lc li tm n l]; cbn in Ht;
      [destruct Ht as (d & fr & ->) | subst tm
      |destruct Ht as (d & fr & ->) | subst tm];
      unfold_closure; cbn [lastArgs lastThis result timerId lastCallTime
                           lastInvokeTime timers nextId invoked set_lastArgs
                           set_lastThis set_result set_timerId
                           set_lastCallTime set_lastInvokeTime set_timers
                           set_nextId set_invoked fst snd app].
    + destruct (maxing c) eqn:Em.
      * destruct Hc as [Hc|Hc]; [|discriminate]. rewrite Hc.
        cbn [timerId timers set_timers]. rewrite drop_own_timer. cbn. eauto.
      * cbn. eauto.
    + destruct (useRAF c), (leading c); cbn; eauto.
    + cbn. eauto.
    + destruct (useRAF c); cbn; eauto.
  - unfold fire.
    destruct s as [a t r [i|] lc li tm n l]; cbn in Ht;
      [destruct Ht as (d & fr & ->) | subst tm];
      cbn [timers has_timer existsb tm_id]; [|reflexivity].
    rewrite Bool.orb_false_r.
    destruct (Nat.eqb i id) eqn:E; [|cbn; eauto].
    apply Nat.eqb_eq in E. subst id. rewrite drop_own_timer.
    unfold timerExpired.
    destruct (shouldInvoke c now _).
    + destruct a; unfold_closure; cbn; destruct (trailing c); reflexivity.
    + unfold_closure. destruct (useRAF c); cbn; eauto.
  - destruct s as [a t r [i|] lc li tm n l]; cbn in Ht;
      [destruct Ht as (d & fr & ->) | subst tm];
      unfold_closure; destruct (useRAF c);
      cbn [timerId timers set_timers]; try rewrite drop_own_timer; reflexivity.
Qed.

(** X4.  On the frame backend, and on the [setTimeout] backend when no
    [maxWait] is configured, a debounced function that is never flushed keeps
    at most one wake-up outstanding, the one whose handle it holds: every
    re-arm there is preceded by the cancellation or the expiry of the wake-up
    before. *)
Theorem X4_single_wakeup_without_flush :
  forall events,
    useRAF c = true \/ maxing c = false ->
    forallb (fun e => negb (is_flush e)) events = true ->
    tidy (exec c events init).
Proof.
  intros events Hc.
  assert (H : forall s, tidy s ->
              forallb (fun e => negb (is_flush e)) events = true ->
              tidy (exec c events s)).
  { induction events as [|e r IH]; intros s Ht Hall; cbn in *; [exact Ht|].
    apply Bool.andb_true_iff in Hall. destruct Hall as [He Hr].
    apply Bool.negb_true_iff in He.
    apply IH; [apply tidy_step; assumption | exact Hr]. }
  apply H. reflexivity.
Qed.

End Discipline.

Section Built.

Variables Val This Res : Type.

(** X5.  What the constructor decides, for every callable target: it never
    fails; the frame backend is chosen exactly when [wait] is omitted and the
    host has [requestAnimationFrame] (an explicit 0 selects [setTimeout]);
    an omitted [wait] counts as 0; without options the leading edge is off,
    the trailing edge on and no ceiling applies; and a configured ceiling is
    never below the delay. *)
Theorem X5_constructor_choices :
  forall (fn : option This -> list Val -> Res) (wait_ : option Z)
         (options : option Options) (hasRAF : bool),
    exists c : Config Val This Res,
      debounce (Callable fn) wait_ options hasRAF = inr (c, init)
      /\ wait c = wait_
      /\ (useRAF c = true <-> wait_ = None /\ hasRAF = true)
      /\ (wait_ = None -> timeToWait c = 0)
      /\ (options = None ->
          leading c = false /\ trailing c = true /\ maxing c = false)
      /\ (maxing c = true ->
          exists M, maxWait c = Some M /\ timeToWait c <= M)
      /\ (maxing c = false -> maxWait c = None).
Proof.
  intros fn wait_ options hasRAF.
  assert (Hraf : negb (is_truthy wait_) && negb (is_zero wait_) && hasRAF = true
                 <-> wait_ = None /\ hasRAF = true).
  { destruct wait_ as [x|]; cbn.
    - destruct (x =? 0); cbn; split; intros H; try discriminate H;
        destruct H; discriminate.
    - split; [intros H; split; [reflexivity | exact H] | intros [_ H]; exact H]. }
  assert (Hzero : wait_ = None -> to_number_or_0 wait_ = 0).
  { intros ->. reflexivity. }
  destruct options as [[ol [om|] ot]|]; eexists; (split; [reflexivity|]);
    cbn; (split; [reflexivity|]); (split; [exact Hraf|]);
    (split; [exact Hzero|]); repeat split; try discriminate.
  intros _. eexists. split; [reflexivity | lia].
Qed.

End Built.

Section BurstRuns.

Variables Val This Res : Type.
Variable c : Config Val This Res.
Variable w : Z.
Hypothesis HB : burst_config c w.

Implicit Types s : State Val This Res.

Lemma burst_shouldInvoke :
  forall t s lc,
    lastCallTime s = Some lc ->
    shouldInvoke c t s = (w <=? t - lc) || (t - lc <? 0).
Proof.
  destruct HB as (_ & _ & Httw & Hmax & _).
  intros t s lc H. unfold shouldInvoke. rewrite H, Httw, Hmax. cbn.
  rewrite Bool.orb_false_r. reflexivity.
Qed.

(** Inside the burst the wake-up, if it comes, re-arms for the rest of the
    delay. *)
Lemma held_fire_restarts :
  forall la lt r id lc li d n log,
    lc <= d < lc + w ->
    fire c d id (mkState la lt r (Some id) (Some lc) li [mkTimer id d false] n log)
    = mkState la lt r (Some n) (Some lc) li [mkTimer n (lc + w) false] (S n) log.
Proof.
  intros la lt r id lc li d n log Hd.
  destruct HB as (Hraf & Hwait & Httw & Hmax & Hw).
  unfold fire. cbn [timers has_timer existsb tm_id].
  rewrite Nat.eqb_refl. cbn [orb]. rewrite drop_own_timer.
  unfold timerExpired.
  rewrite burst_shouldInvoke with (lc := lc) by reflexivity.
  assert (E1 : (w <=? d - lc) = false) by (apply Z.leb_gt; lia).
  assert (E2 : (d - lc <? 0) = false) by (apply Z.ltb_ge; lia).
  rewrite E1, E2. cbn [orb].
  unfold startTimer, remainingWait. rewrite Hraf, Hwait, Hmax. cbn.
  f_equal. f_equal. f_equal. lia.
Qed.

(** At the end of the delay the wake-up is the trailing edge. *)
Lemma held_fire_trailing :
  forall la lt r id lc li n log,
    exists s',
      fire c (lc + w) id
           (mkState la lt r (Some id) (Some lc) li [mkTimer id (lc + w) false] n log)
      = s'
      /\ timers s' = [] /\ timerId s' = None
      /\ invoked s'
         = (if trailing c
            then match la with
                 | Some a => [mkInvocation (lc + w) lt a]
                 | None => []
                 end
            else []) ++ log.
Proof.
  intros la lt r id lc li n log.
  destruct HB as (Hraf & Hwait & Httw & Hmax & Hw).
  eexists. split; [reflexivity|].
  unfold fire. cbn [timers has_timer existsb tm_id].
  rewrite Nat.eqb_refl. cbn [orb]. rewrite drop_own_timer.
  unfold timerExpired.
  rewrite burst_shouldInvoke with (lc := lc) by reflexivity.
  assert (E1 : (w <=? lc + w - lc) = true) by (apply Z.leb_le; lia).
  rewrite E1. cbn [orb].
  unfold trailingEdge, invokeFunc.
  destruct (trailing c), la; cbn; repeat split.
Qed.

Lemma held_advance :
  forall fuel t la lt r id lc li d n log,
    (1 <= fuel)%nat -> t < lc + w -> lc <= d <= lc + w ->
    exists id' d' n',
      advance c fuel t
              (mkState la lt r (Some id) (Some lc) li [mkTimer id d false] n log)
      = Some (mkState la lt r (Some id') (Some lc) li [mkTimer id' d' false] n' log)
      /\ t < d' <= lc + w /\ lc <= d'.
Proof.
  intros fuel t la lt r id lc li d n log Hf Ht Hd.
  destruct fuel as [|fuel]; [lia|].
  cbn [advance timers earliest tm_due tm_id].
  destruct (d <=? t) eqn:E.
  - apply Z.leb_le in E. rewrite held_fire_restarts by lia.
    exists n, (lc + w), (S n). split; [|lia].
    destruct fuel; cbn [advance timers earliest tm_due tm_id];
      (assert (E' : (lc + w <=? t) = false) by (apply Z.leb_gt; lia));
      rewrite E'; reflexivity.
  - apply Z.leb_gt in E. exists id, d, n. split; [reflexivity | lia].
Qed.

Lemma held_call :
  forall t this args la lt r id lc li d n log,
    lc <= t < lc + w ->
    snd (debounced c t this args
           (mkState la lt r (Some id) (Some lc) li [mkTimer id d false] n log))
    = mkState (Some args) this r (Some id) (Some t) li [mkTimer id d false] n log.
Proof.
  intros t this args la lt r id lc li d n log Ht.
  unfold debounced.
  rewrite burst_shouldInvoke with (lc := lc) by reflexivity.
  assert (E1 : (w <=? t - lc) = false) by (apply Z.leb_gt; lia).
  assert (E2 : (t - lc <? 0) = false) by (apply Z.ltb_ge; lia).
  rewrite E1, E2. reflexivity.
Qed.

Lemma held_finish :
  forall fuel horizon la lt r id lc li d n log,
    (2 <= fuel)%nat -> lc + w <= horizon -> lc <= d <= lc + w ->
    exists s',
      advance c fuel horizon
              (mkState la lt r (Some id) (Some lc) li [mkTimer id d false] n log)
      = Some s'
      /\ timers s' = [] /\ timerId s' = None
      /\ invoked s'
         = (if trailing c
            then match la with
                 | Some a => [mkInvocation (lc + w) lt a]
                 | None => []
                 end
            else []) ++ log.
Proof.
  intros fuel horizon la lt r id lc li d n log Hf Hh Hd.
  destruct fuel as [|[|fuel]]; try lia.
  assert (Hlast : forall fuel' id0 n0,
             exists s',
               advance c (S fuel') horizon
                       (mkState la lt r (Some id0) (Some lc) li
                                [mkTimer id0 (lc + w) false] n0 log)
               = Some s'
               /\ timers s' = [] /\ timerId s' = None
               /\ invoked s'
                  = (if trailing c
                     then match la with
                          | Some a => [mkInvocation (lc + w) lt a]
                          | None => []
                          end
                     else []) ++ log).
  { intros fuel' id0 n0.
    cbn [advance timers earliest tm_due tm_id].
    assert (E : (lc + w <=? horizon) = true) by (apply Z.leb_le; lia).
    rewrite E.
    destruct (held_fire_trailing la lt r id0 lc li n0 log)
      as (s' & Es & T1 & T2 & T3).
    rewrite Es. exists s'. split; [apply advance_idle; exact T1|].
    split; [exact T1|]. split; [exact T2 | exact T3]. }
  destruct (Z.eq_dec d (lc + w)) as [->|Hne].
  - apply Hlast.
  - cbn [advance timers earliest tm_due tm_id].
    assert (E : (d <=? horizon) = true) by (apply Z.leb_le; lia).
    rewrite E. rewrite held_fire_restarts by lia. apply Hlast.
Qed.

Lemma held_run :
  forall rest fuel la lt r id lc li d n log,
    (1 <= fuel)%nat -> burst w lc rest -> lc <= d <= lc + w ->
    exists la' lt' lc' id' d' n',
      run c fuel rest
          (mkState la lt r (Some id) (Some lc) li [mkTimer id d false] n log)
      = Some (mkState la' lt' r (Some id') (Some lc') li
                      [mkTimer id' d' false] n' log)
      /\ lc' <= d' <= lc' + w
      /\ (la', lt', lc')
         = fold_left (fun _ k => (Some (call_args k), call_this k, call_time k))
                     rest (la, lt, lc).
Proof.
  induction rest as [|k rest IH];
    intros fuel la lt r id lc li d n log Hf Hb Hd.
  - exists la, lt, lc, id, d, n. cbn. repeat split; lia.
  - destruct Hb as [Hk Hrest]. cbn [run fold_left].
    destruct (held_advance fuel (call_time k) la lt r id lc li d n log Hf)
      as (id1 & d1 & n1 & E1 & Hd1 & _); [lia | exact Hd |].
    rewrite E1. rewrite held_call by lia.
    apply IH; [exact Hf | exact Hrest | lia].
Qed.

Lemma fold_last_call :
  forall (rest : list (Call Val This)) first x,
    rest <> [] ->
    fold_left (fun _ k => (Some (call_args k), call_this k, call_time k)) rest x
    = (Some (call_args (last rest first)), call_this (last rest first),
       call_time (last rest first)).
Proof.
  induction rest as [|k rest IH]; intros first x H; [contradiction|].
  cbn [fold_left]. destruct rest as [|k' rest'].
  - reflexivity.
  - rewrite (IH first) by discriminate. reflexivity.
Qed.

(** X6.  A burst on a scheduler over [setTimeout] with delay [w] and no
    [maxWait]: calls, any number of them, each less than [w] after the one
    before, on a host with exact timers.  Up to any time [w] or more after
    the last call, [func] has been called on the leading edge with the first
    call's arguments if [leading] is set, and on the trailing edge, [w] after
    the last call and with its arguments, if [trailing] is set and arguments
    came in after the leading call; nothing else, and no wake-up is left. *)
Theorem X6_burst_coalesces :
  forall (first : Call Val This) (rest : list (Call Val This)) fuel horizon,
    burst w (call_time first) rest ->
    (2 <= fuel)%nat ->
    call_time (last rest first) + w <= horizon ->
    exists s,
      run_until c fuel (first :: rest) horizon init = Some s
      /\ invoked s = burst_log c w first rest
      /\ timers s = []
      /\ pending s = false.
Proof.
  intros first rest fuel horizon Hb Hf Hh.
  destruct HB as (Hraf & Hwait & Httw & Hmax & Hw).
  unfold run_until. cbn [run].
  rewrite advance_idle by reflexivity.
  assert (Hfirst :
            snd (debounced c (call_time first) (call_this first)
                   (call_args first) init)
            = mkState (if leading c then None else Some (call_args first))
                      (if leading c then None else call_this first)
                      (if leading c
                       then Some (func c (call_this first) (call_args first))
                       else None)
                      (Some 1%nat) (Some (call_time first)) (call_time first)
                      [mkTimer 1 (call_time first + w) false] 2%nat
                      (if leading c
                       then [invocation_of (call_time first) first] else [])).
  { unfold debounced, shouldInvoke, leadingEdge, startTimer. cbn.
    rewrite Hraf, Httw. cbn. rewrite (Z.max_r 0 w) by lia.
    destruct (leading c); reflexivity. }
  rewrite Hfirst.
  destruct (held_run rest fuel
              (if leading c then None else Some (call_args first))
              (if leading c then None else call_this first)
              (if leading c
               then Some (func c (call_this first) (call_args first))
               else None)
              1%nat (call_time first) (call_time first)
              (call_time first + w) 2%nat
              (if leading c then [invocation_of (call_time first) first] else []))
    as (la' & lt' & lc' & id' & d' & n' & Erun & Hd' & Efold);
    [lia | exact Hb | lia |].
  rewrite Erun.
  destruct (held_finish fuel horizon la' lt'
              (if leading c
               then Some (func c (call_this first) (call_args first))
               else None)
              id' lc' (call_time first) d' n'
              (if leading c then [invocation_of (call_time first) first] else []))
    as (s' & Eadv & T1 & T2 & T3); [exact Hf | | exact Hd' |].
  - destruct rest as [|k rest'].
    + cbn in Efold. injection Efold as _ _ ->. cbn in Hh. exact Hh.
    + rewrite (fold_last_call _ first) in Efold by discriminate.
      injection Efold as _ _ ->. exact Hh.
  - exists s'. split; [exact Eadv|]. split; [|split; [exact T1|]].
    + rewrite T3. unfold burst_log. f_equal.
      destruct rest as [|k rest'].
      * cbn in Efold. injection Efold as -> -> ->. cbn.
        destruct (trailing c), (leading c); reflexivity.
      * rewrite (fold_last_call _ first) in Efold by discriminate.
        injection Efold as -> -> ->.
        cbn [List.length Nat.eqb negb]. rewrite Bool.orb_true_r.
        destruct (trailing c); reflexivity.
    + unfold pending. rewrite T2. reflexivity.
Qed.

End BurstRuns.

Lemma X6_witness :
  exists s,
    run_until cfg_100 2 [call_at 0 "A"; call_at 30 "B"; call_at 60 "C"] 500 init
    = Some s
    /\ invoked s = burst_log cfg_100 100 (call_at 0 "A")
                             [call_at 30 "B"; call_at 60 "C"]
    /\ timers s = []
    /\ pending s = false.
Proof.
  apply (X6_burst_coalesces string unit (list string) cfg_100 100).
  - unfold burst_config. cbn. repeat split; try reflexivity; lia.
  - cbn. repeat split; lia.
  - lia.
  - cbn. lia.
Defined.

(** * [before] and [once] *)

Section BeforeProps.

Variables Val This Res : Type.
Variable f : option This -> list Val -> Res.

Lemma before_run_spec :
  forall (cs : list (option This * list Val)) n fo res log,
    fo = Some f \/ n <= 1 ->
    bf_calls (snd (before_run cs (mkBefore n fo res log)))
    = rev (firstn (Z.to_nat (n - 1)) cs) ++ log
    /\ forall j p,
        nth_error cs j = Some p ->
        nth_error (fst (before_run cs (mkBefore n fo res log))) j
        = Some (inr (if Z.of_nat j <? n - 1 then Some (apply_to f p)
                     else if n <=? 1 then res
                          else option_map (apply_to f)
                                          (nth_error cs (Z.to_nat (n - 2))))).
Proof.
  induction cs as [|[this args] rest IH]; intros n fo res log Hfo.
  - cbn. split; [destruct (Z.to_nat (n - 1)); reflexivity|].
    intros [|j] p H; discriminate H.
  - cbn [before_run]. unfold beforeInternal. cbn [bf_n bf_func bf_result bf_calls].
    destruct (0 <? n - 1) eqn:E.
    + apply Z.ltb_lt in E.
      destruct Hfo as [->|Hfo]; [|lia].
      destruct (before_run rest _) as [outs st2] eqn:Er.
      destruct (IH (n - 1) (if n - 1 <=? 1 then None else Some f)
                   (Some (f this args)) ((this, args) :: log)) as [C O].
      { destruct (n - 1 <=? 1) eqn:E1; [right; apply Z.leb_le, E1 | left; reflexivity]. }
      rewrite Er in C, O. cbn [fst snd] in *. split.
      * rewrite C.
        replace (Z.to_nat (n - 1)) with (S (Z.to_nat (n - 1 - 1))) by lia.
        cbn [firstn rev]. rewrite <- app_assoc. reflexivity.
      * intros [|j] p Hp; cbn [nth_error] in *.
        -- injection Hp as <-.
           assert (E0 : (Z.of_nat 0 <? n - 1) = true) by (apply Z.ltb_lt; lia).
           rewrite E0. reflexivity.
        -- rewrite (O j p Hp).
           assert (Ej : (Z.of_nat (S j) <? n - 1) = (Z.of_nat j <? n - 1 - 1)).
           { destruct (Z.of_nat j <? n - 1 - 1) eqn:X;
               [apply Z.ltb_lt in X; apply Z.ltb_lt; lia
               |apply Z.ltb_ge in X; apply Z.ltb_ge; lia]. }
           rewrite Ej. destruct (Z.of_nat j <? n - 1 - 1); [reflexivity|].
           assert (En : (n <=? 1) = false) by (apply Z.leb_gt; lia).
           rewrite En. f_equal. f_equal.
           destruct (n - 1 <=? 1) eqn:E1.
           ++ apply Z.leb_le in E1.
              replace (Z.to_nat (n - 2)) with 0%nat by lia. reflexivity.
           ++ apply Z.leb_gt in E1.
              replace (Z.to_nat (n - 2)) with (S (Z.to_nat (n - 1 - 2))) by lia.
              reflexivity.
    + apply Z.ltb_ge in E.
      destruct (before_run rest _) as [outs st2] eqn:Er.
      destruct (IH (n - 1) (if n - 1 <=? 1 then None else fo) res log) as [C O].
      { right. lia. }
      rewrite Er in C, O. cbn [fst snd] in *. split.
      * rewrite C.
        replace (Z.to_nat (n - 1 - 1)) with 0%nat by lia.
        replace (Z.to_nat (n - 1)) with 0%nat by lia. reflexivity.
      * assert (En : (n <=? 1) = true) by (apply Z.leb_le; lia).
        assert (En' : (n - 1 <=? 1) = true) by (apply Z.leb_le; lia).
        intros [|j] p Hp; cbn [nth_error] in *.
        -- assert (E0 : (Z.of_nat 0 <? n - 1) = false) by (apply Z.ltb_ge; lia).
           rewrite E0, En. reflexivity.
        -- rewrite (O j p Hp).
           assert (E1 : (Z.of_nat j <? n - 1 - 1) = false) by (apply Z.ltb_ge; lia).
           assert (E2 : (Z.of_nat (S j) <? n - 1) = false) by (apply Z.ltb_ge; lia).
           rewrite E1, E2, En, En'. reflexivity.
Qed.

(** X7.  The function [before(n, func)] returns, called any number of times:
    it calls [func] for the first [n - 1] calls and for no other (never, when
    [n <= 1]), with their [this] and arguments; none of the calls throws;
    each of the first [n - 1] calls returns what [func] returned for it, and
    every later call returns what [func] returned for call [n - 1]
    ([undefined] when [func] was never called). *)
Theorem X7_before_limits_calls :
  forall (n : Z) (cs : list (option This * list Val)),
    exists st0,
      before n (Callable f) = inr st0
      /\ rev (bf_calls (snd (before_run cs st0)))
         = firstn (Z.to_nat (n - 1)) cs
      /\ forall j p,
          nth_error cs j = Some p ->
          nth_error (fst (before_run cs st0)) j
          = Some (inr (if Z.of_nat j <? n - 1 then Some (apply_to f p)
                       else if n <=? 1 then None
                            else option_map (apply_to f)
                                            (nth_error cs (Z.to_nat (n - 2))))).
Proof.
  intros n cs. eexists. split; [reflexivity|].
  destruct (before_run_spec cs n (Some f) None []) as [C O];
    [left; reflexivity|].
  split; [|exact O].
  rewrite C, app_nil_r. apply rev_involutive.
Qed.

(** X8.  The function [once(func)] returns calls [func] for its first call
    only, and every call, the first and the repeated ones, returns what
    [func] returned for the first. *)
Theorem X8_once_calls_once :
  forall (first : option This * list Val) (rest : list (option This * list Val)),
    exists st0,
      once (Callable f) = inr st0
      /\ bf_calls (snd (before_run (first :: rest) st0)) = [first]
      /\ fst (before_run (first :: rest) st0)
         = map (fun _ => inr (Some (apply_to f first))) (first :: rest).
Proof.
  intros first rest. eexists. split; [reflexivity|].
  pose proof (before_run_spec (first :: rest) 2 (Some f) None []
                (or_introl eq_refl)) as [C O].
  split.
  - etransitivity; [exact C|]. cbn. rewrite Pos2Nat.inj_1. reflexivity.
  - apply nth_error_ext. intros j.
    destruct (nth_error (first :: rest) j) as [p|] eqn:Ej.
    + etransitivity; [exact (O j p Ej)|].
      rewrite nth_error_map, Ej.
      destruct j as [|j]; [cbn in *; injection Ej as <-; reflexivity|].
      assert (E : (Z.of_nat (S j) <? 2 - 1) = false) by (apply Z.ltb_ge; lia).
      rewrite E. reflexivity.
    + rewrite nth_error_map, Ej. cbn [option_map].
      apply nth_error_None. apply nth_error_None in Ej.
      assert (L : forall cs (st : BeforeState Val This Res),
                 List.length (fst (before_run cs st)) = List.length cs).
      { induction cs as [|[t a] cs IHc]; intros st; [reflexivity|].
        cbn [before_run]. destruct (beforeInternal t a st) as [o st1].
        specialize (IHc st1). destruct (before_run cs st1). cbn in *. lia. }
      rewrite L. exact Ej.
Qed.

(** What is not a function is refused by [before] and by [once]. *)
Lemma before_not_callable :
  forall n, @before Val This Res n NotCallable = inl (TypeError "Expected a function")
            /\ @once Val This Res NotCallable = inl (TypeError "Expected a function").
Proof. intros n. split; reflexivity. Qed.

End BeforeProps.

(** * [debounce2] *)

Section Debounce2Props.

Variables Payload Value : Type.
Variable target_value : Payload -> option Value.

Implicit Types s : State2 Payload Value.

Lemma drop_own_timer2 :
  forall id d (ca : Callee Payload Value),
    drop_timer2 id [mkTimer2 id d ca] = [].
Proof.
  intros id d ca. unfold drop_timer2. cbn. rewrite Nat.eqb_refl. reflexivity.
Qed.

Lemma owned_step :
  forall c s e,
    (d2_timers s = []
     \/ exists tm, d2_timers s = [tm] /\ internalTimer s = Some (t2_id tm)) ->
    d2_timers (step2 target_value c s e) = []
    \/ exists tm, d2_timers (step2 target_value c s e) = [tm]
                  /\ internalTimer (step2 target_value c s e) = Some (t2_id tm).
Proof.
  intros c s e H.
  assert (Hclear : d2_timers (clearTimeout2 (internalTimer s) s) = []).
  { destruct s as [it tms n con log]. cbn in *.
    destruct H as [->|[[id d ca] [-> Hit]]]; cbn in *.
    - destruct it; reflexivity.
    - rewrite Hit. cbn. apply drop_own_timer2. }
  destruct e as [now p|now id]; cbn [step2].
  - unfold debounced2.
    destruct (if d2_isEvent c then _ else _) as [ca|]; cbn [snd].
    + right. cbn [d2_timers internalTimer]. rewrite Hclear. cbn. eauto.
    + left. exact Hclear.
  - unfold fire2.
    destruct (find _ (d2_timers s)) as [tm|] eqn:Ef; [|exact H].
    left. destruct H as [E|[tm0 [E Hit]]]; rewrite E in Ef; cbn in Ef;
      [discriminate|].
    destruct (Nat.eqb (t2_id tm0) id) eqn:Eid; [|discriminate].
    apply Nat.eqb_eq in Eid. subst id.
    destruct (d2_callable c); cbn; rewrite E; destruct tm0; apply drop_own_timer2.
Qed.

(** X9.  [debounce2] never has more than one wake-up outstanding, and the
    one it has is the one whose handle it holds, whatever the calls and the
    wake-ups, their order and the clock: each call clears the wake-up of the
    call before it. *)
Theorem X9_debounce2_single_wakeup :
  forall callable isEvent timeout (events : list (Event2 Payload)),
    let c := fst (@debounce2 Payload Value callable isEvent timeout) in
    let s := fold_left (step2 target_value c) events
                       (snd (@debounce2 Payload Value callable isEvent timeout)) in
    d2_timers s = []
    \/ exists tm, d2_timers s = [tm] /\ internalTimer s = Some (t2_id tm).
Proof.
  intros callable isEvent timeout events c.
  assert (H : forall s0 : State2 Payload Value,
             (d2_timers s0 = []
              \/ exists tm, d2_timers s0 = [tm]
                            /\ internalTimer s0 = Some (t2_id tm)) ->
             let s := fold_left (step2 target_value c) events s0 in
             d2_timers s = []
             \/ exists tm, d2_timers s = [tm]
                           /\ internalTimer s = Some (t2_id tm)).
  { induction events as [|e r IH]; intros s0 H0; cbn; [exact H0|].
    apply IH, owned_step, H0. }
  apply H. left. reflexivity.
Qed.

(** X10.  A call whose payload cannot be read ([isEvent] set and no
    [payload.target]) throws after it has cleared the wake-up of the call
    before: that call never reaches [func], and nothing is scheduled. *)
Theorem X10_debounce2_unreadable_payload :
  forall callable timeout (events : list (Event2 Payload)) now p,
    target_value p = None ->
    let c := fst (@debounce2 Payload Value callable (Some true) timeout) in
    let s := fold_left (step2 target_value c) events
                       (snd (@debounce2 Payload Value callable (Some true) timeout)) in
    exists e,
      fst (debounced2 target_value c now p s) = Some e
      /\ d2_timers (snd (debounced2 target_value c now p s)) = []
      /\ d2_invoked (snd (debounced2 target_value c now p s)) = d2_invoked s.
Proof.
  intros callable timeout events now p Hp c s.
  pose proof (X9_debounce2_single_wakeup callable (Some true) timeout events) as H.
  cbn zeta in H. fold c in H. fold s in H.
  unfold debounced2. cbn [d2_isEvent c fst debounce2]. rewrite Hp. cbn.
  eexists. split; [reflexivity|].
  destruct s as [it tms n con log]. cbn in *.
  destruct H as [->|[[id d ca] [-> Hit]]]; cbn in *.
  - destruct it; split; reflexivity.
  - rewrite Hit. cbn. rewrite Nat.eqb_refl. split; reflexivity.
Qed.

Section Exact.

Variable T : Z.
Hypothesis HT : 0 <= T.
Variable horizon : Z.

Lemma advance2_idle :
  forall t s, d2_timers s = [] -> advance2 (mkConfig2 true false T) t s = s.
Proof. intros t s H. unfold advance2. rewrite H. reflexivity. Qed.

Lemma advance2_single :
  forall t it id d (ca : Callee Payload Value) n con log,
    advance2 (mkConfig2 true false T) t (mkState2 it [mkTimer2 id d ca] n con log)
    = if d <=? t
      then mkState2 it [] n con ((d, ca) :: log)
      else mkState2 it [mkTimer2 id d ca] n con log.
Proof.
  intros t it id d ca n con log. unfold advance2. cbn.
  destruct (d <=? t); [|reflexivity].
  unfold fire2. cbn. rewrite Nat.eqb_refl. cbn.
  rewrite ?drop_own_timer2, ?Nat.eqb_refl. reflexivity.
Qed.

Lemma advance2_quiet :
  forall t s,
    (d2_timers s = []
     \/ exists id d ca, d2_timers s = [mkTimer2 id d ca]
                        /\ internalTimer s = Some id /\ t < d) ->
    advance2 (mkConfig2 true false T) t s = s.
Proof.
  intros t s [E|(id & d & ca & E & Hit & Hd)].
  - apply advance2_idle, E.
  - destruct s as [it tms n con log]. cbn [d2_timers] in E. subst tms.
    rewrite advance2_single.
    assert (X : (d <=? t) = false) by (apply Z.leb_gt; lia).
    rewrite X. reflexivity.
Qed.

Lemma debounced2_quiet :
  forall t p s,
    (d2_timers s = []
     \/ exists tm, d2_timers s = [tm] /\ internalTimer s = Some (t2_id tm)) ->
    snd (debounced2 target_value (mkConfig2 true false T) t p s)
    = mkState2 (Some (d2_nextId s)) [mkTimer2 (d2_nextId s) (t + T) (Raw p)]
               (S (d2_nextId s)) (Raw p :: d2_console s) (d2_invoked s).
Proof.
  intros t p s H. unfold debounced2. cbn [d2_isEvent d2_timeout timeout_delay snd].
  rewrite (Z.max_r 0 T) by lia.
  destruct s as [it tms n con log]. cbn in *.
  destruct H as [->|[[id d ca] [-> Hit]]]; cbn in *.
  - destruct it; reflexivity.
  - rewrite Hit. cbn. rewrite Nat.eqb_refl. reflexivity.
Qed.

Lemma run2_quiet :
  forall rest t p s,
    (d2_timers s = []
     \/ exists id d ca, d2_timers s = [mkTimer2 id d ca]
                        /\ internalTimer s = Some id /\ t < d) ->
    ordered2 t rest ->
    rev (d2_invoked (run2 target_value (mkConfig2 true false T) ((t, p) :: rest) horizon s))
    = rev (d2_invoked s) ++ survivors T horizon ((t, p) :: rest).
Proof.
  induction rest as [|[t' p'] rest IH]; intros t p s Hq Hord.
  - cbn [run2 survivors].
    pose proof (advance2_quiet t s Hq) as Ea.
    rewrite Ea. rewrite debounced2_quiet.
    + rewrite advance2_single.
      destruct (t + T <=? horizon); cbn; rewrite ?app_nil_r; reflexivity.
    + destruct Hq as [E|(id & d & ca & E & Hit & Hd)]; [left; exact E|].
      right. exists (mkTimer2 id d ca). split; [exact E | exact Hit].
  - destruct Hord as [Ht' Hrest].
    change (run2 target_value (mkConfig2 true false T) ((t, p) :: (t', p') :: rest) horizon s)
      with (run2 target_value (mkConfig2 true false T) ((t', p') :: rest) horizon
                 (snd (debounced2 target_value (mkConfig2 true false T) t p (advance2 (mkConfig2 true false T) t s)))).
    pose proof (advance2_quiet t s Hq) as Ea.
    rewrite Ea. rewrite debounced2_quiet.
    2:{ destruct Hq as [E|(id & d & ca & E & Hit & Hd)]; [left; exact E|].
        right. exists (mkTimer2 id d ca). split; [exact E | exact Hit]. }
    cbn [survivors].
    destruct (t + T <=? t') eqn:E.
    + (* the wake-up runs before the next call *)
      cbn [run2].
      rewrite advance2_single, E.
      change (run2 target_value (mkConfig2 true false T) rest horizon
                (snd (debounced2 target_value (mkConfig2 true false T) t' p' ?x)))
        with (run2 target_value (mkConfig2 true false T) rest horizon
                (snd (debounced2 target_value (mkConfig2 true false T) t' p' x))).
      rewrite <- (advance2_idle t'
                    (mkState2 (Some (d2_nextId s)) [] (S (d2_nextId s))
                              (Raw p :: d2_console s)
                              ((t + T, Raw p) :: d2_invoked s)))
        by reflexivity.
      change (run2 target_value (mkConfig2 true false T) rest horizon
                (snd (debounced2 target_value (mkConfig2 true false T) t' p' (advance2 (mkConfig2 true false T) t' ?x))))
        with (run2 target_value (mkConfig2 true false T) ((t', p') :: rest) horizon x).
      rewrite IH; [|left; reflexivity | exact Hrest].
      cbn [d2_invoked rev]. rewrite <- app_assoc. reflexivity.
    + apply Z.leb_gt in E.
      rewrite IH; [reflexivity | | exact Hrest].
      right. exists (d2_nextId s), (t + T), (Raw p).
      split; [reflexivity|]. split; [reflexivity | lia].
Qed.

End Exact.

(** X11.  On a host with exact timers, with payloads passed on as they are
    and a timeout [T >= 0] (400 when omitted): a call reaches [func] exactly
    when the next call comes [T] or more after it (for the last call: when
    the horizon is that far), and then [func] is called [T] after the call,
    with its payload, in the order of the calls. *)
Theorem X11_debounce2_survivors :
  forall (isEvent : option bool) (timeout : option Z)
         (calls : list (Z * Payload)) (horizon t0 : Z),
    isEvent = None \/ isEvent = Some false ->
    0 <= match timeout with Some t => t | None => 400 end ->
    ordered2 t0 calls ->
    rev (d2_invoked
           (run2 target_value (fst (@debounce2 Payload Value true isEvent timeout))
                 calls horizon
                 (snd (@debounce2 Payload Value true isEvent timeout))))
    = survivors (match timeout with Some t => t | None => 400 end) horizon calls.
Proof.
  intros isEvent timeout calls horizon t0 Hie HT Hord.
  assert (Ec : fst (@debounce2 Payload Value true isEvent timeout)
               = mkConfig2 true false
                           (match timeout with Some t => t | None => 400 end)).
  { destruct Hie as [->| ->]; reflexivity. }
  rewrite Ec. cbn [debounce2 snd].
  destruct calls as [|[t p] rest].
  - reflexivity.
  - destruct Hord as [_ Hrest].
    rewrite (run2_quiet _ HT horizon rest t p); [reflexivity | | exact Hrest].
    left. reflexivity.
Qed.

End Debounce2Props.

Lemma X10_witness :
  exists e,
    fst (debounced2 (fun _ : nat => @None nat)
           (fst (@debounce2 nat nat true (Some true) None)) 5 7%nat
           (fold_left (step2 (fun _ : nat => @None nat)
                             (fst (@debounce2 nat nat true (Some true) None)))
                      [] (snd (@debounce2 nat nat true (Some true) None))))
    = Some e.
Proof.
  destruct (X10_debounce2_unreadable_payload nat nat (fun _ => None) true None
              [] 5 7%nat eq_refl) as (e & He & _).
  exists e. exact He.
Defined.

Lemma X11_witness :
  rev (d2_invoked
         (run2 (fun n : nat => Some n) (fst (@debounce2 nat nat true None None))
               [(0, 1%nat); (100, 2%nat); (600, 3%nat)] 700
               (snd (@debounce2 nat nat true None None))))
  = [(500, Raw 2%nat)].
Proof.
  apply (X11_debounce2_survivors nat nat (fun n => Some n) None None
           [(0, 1%nat); (100, 2%nat); (600, 3%nat)] 700 0).
  - left. reflexivity.
  - lia.
  - cbn. repeat split; lia.
Defined.

(** * [EventEmitter] *)

Section EmitterProps.

Import EventEmitter.

Variable Args : Type.

Implicit Types e : Emitter Args.

Lemma reg_get_set :
  forall r name v, reg_get (reg_set r name v) name = Some v.
Proof.
  induction r as [|[k v0] r IH]; intros name v; cbn.
  - rewrite String.eqb_refl. reflexivity.
  - destruct (String.eqb k name) eqn:E; cbn; rewrite E; [reflexivity | apply IH].
Qed.

Lemma reg_get_set_other :
  forall r name name' v,
    name' <> name -> reg_get (reg_set r name v) name' = reg_get r name'.
Proof.
  induction r as [|[k v0] r IH]; intros name name' v Hne; cbn.
  - destruct (String.eqb name name') eqn:E; [|reflexivity].
    apply String.eqb_eq in E. congruence.
  - destruct (String.eqb k name) eqn:E; cbn.
    + apply String.eqb_eq in E. subst k.
      destruct (String.eqb name name') eqn:E'; [|reflexivity].
      apply String.eqb_eq in E'. congruence.
    + destruct (String.eqb k name'); [reflexivity | apply IH, Hne].
Qed.

Lemma reg_set_set :
  forall r name a b, reg_set (reg_set r name a) name b = reg_set r name b.
Proof.
  induction r as [|[k v0] r IH]; intros name a b; cbn.
  - rewrite String.eqb_refl. reflexivity.
  - destruct (String.eqb k name) eqn:E; cbn; rewrite E; [reflexivity|].
    f_equal. apply IH.
Qed.

Lemma reg_set_same :
  forall r name v, reg_get r name = Some v -> reg_set r name v = r.
Proof.
  induction r as [|[k v0] r IH]; intros name v H; cbn in *; [discriminate|].
  destruct (String.eqb k name) eqn:E.
  - injection H as <-. reflexivity.
  - f_equal. apply IH, H.
Qed.

Lemma uids_app :
  forall a b, uids (a ++ b) = uids a ++ uids b.
Proof.
  induction a as [|[i|u n l] a IH]; intros b; cbn; [reflexivity | apply IH|].
  f_equal. apply IH.
Qed.

Lemma remove_first_own :
  forall u n l pre r,
    ~ In u (uids pre) ->
    remove_first (DoOnce u n l) (pre ++ DoOnce u n l :: r) = pre ++ r.
Proof.
  induction pre as [|[i|v m l'] pre IH]; intros r H; cbn in *.
  - rewrite Nat.eqb_refl. reflexivity.
  - f_equal. apply IH, H.
  - destruct (Nat.eqb v u) eqn:E.
    + apply Nat.eqb_eq in E. exfalso. apply H. left. exact E.
    + f_equal. apply IH. intros Hin. apply H. right. exact Hin.
Qed.

Lemma well_formed_drop :
  forall name pre d r,
    well_formed name (pre ++ d :: r) -> well_formed name (pre ++ r).
Proof.
  intros name pre d r [Hnd Hall]. split.
  - rewrite uids_app in *. destruct d as [i|u n l]; cbn in Hnd; [exact Hnd|].
    apply NoDup_remove_1 in Hnd. exact Hnd.
  - apply Forall_app in Hall. destruct Hall as [H1 H2].
    inversion H2; subst. apply Forall_app. split; assumption.
Qed.

Lemma forEach_exhausted :
  forall n k name (args : Args) count e ls,
    reg_get (registry e) name = Some ls ->
    (List.length ls <= k)%nat ->
    forEach_from n k name args (count, e) = (count, e).
Proof.
  induction n as [|n IH]; intros k name args count e ls Hg Hk; [reflexivity|].
  cbn [forEach_from]. rewrite Hg.
  assert (E : nth_error ls k = None) by (apply nth_error_None; exact Hk).
  rewrite E. apply (IH (S k) name args count e ls Hg). lia.
Qed.

(** The loop of [emit], from any index on. *)
Lemma forEach_spec :
  forall name (args : Args) n pre ls count e,
    reg_get (registry e) name = Some (pre ++ ls) ->
    well_formed name (pre ++ ls) ->
    (List.length ls <= n)%nat ->
    forEach_from n (List.length pre) name args (count, e)
    = ((count + List.length (visited ls))%nat,
       mkEmitter (reg_set (registry e) name (pre ++ kept ls))
                 (next_uid e)
                 (rev (map (fun i => (i, args)) (visited ls)) ++ heard e)).
Proof.
  intros name args.
  assert (Hdone : forall n pre count e,
             reg_get (registry e) name = Some (pre ++ []) ->
             forEach_from n (List.length pre) name args (count, e)
             = ((count + 0)%nat,
                mkEmitter (reg_set (registry e) name (pre ++ []))
                          (next_uid e) (heard e))).
  { intros n pre count e Hg.
    rewrite (forEach_exhausted n _ name args count e _ Hg)
      by (rewrite app_nil_r; lia).
    rewrite (reg_set_same _ _ _ Hg), Nat.add_0_r. destruct e; reflexivity. }
  induction n as [|n IH]; intros pre ls count e Hg Hwf Hn.
  - destruct ls; [|cbn in Hn; lia]. apply Hdone, Hg.
  - destruct ls as [|[i|u nm inner] r].
    + apply Hdone, Hg.
    + cbn [forEach_from]. rewrite Hg.
      rewrite nth_error_app2, Nat.sub_diag by lia. cbn [nth_error call].
      replace (S (List.length pre)) with (List.length (pre ++ [User i]))
        by (rewrite length_app; cbn; lia).
      rewrite IH with (ls := r); cbn [registry next_uid heard].
      * cbn [visited kept List.length map rev].
        rewrite <- !app_assoc. cbn [app].
        f_equal; try lia.
      * rewrite <- app_assoc. exact Hg.
      * rewrite <- app_assoc. exact Hwf.
      * cbn in Hn. lia.
    + destruct Hwf as [Hnd Hall].
      assert (Hd : once_for name (DoOnce u nm inner)).
      { apply Forall_app in Hall. destruct Hall as [_ H2].
        inversion H2; assumption. }
      destruct inner as [i|]; [|contradiction]. cbn in Hd. subst nm.
      assert (Hu : ~ In u (uids pre)).
      { rewrite uids_app in Hnd. cbn in Hnd.
        apply NoDup_remove_2 in Hnd. intros Hin. apply Hnd.
        apply in_or_app. left. exact Hin. }
      cbn [forEach_from]. rewrite Hg.
      rewrite nth_error_app2, Nat.sub_diag by lia. cbn [nth_error call].
      unfold removeListener. cbn [registry next_uid heard]. rewrite Hg.
      rewrite remove_first_own by exact Hu.
      destruct r as [|x r'].
      * rewrite (forEach_exhausted n _ name args _ _ (pre ++ []));
          [| cbn [registry]; apply reg_get_set | rewrite app_nil_r; lia].
        cbn [visited kept List.length map rev app]. f_equal. lia.
      * replace (S (List.length pre)) with (List.length (pre ++ [x]))
          by (rewrite length_app; cbn; lia).
        rewrite IH with (ls := r'); cbn [registry next_uid heard].
        -- cbn [visited kept List.length map rev].
           rewrite reg_set_set. rewrite <- !app_assoc. cbn [app].
           f_equal; try lia.
        -- rewrite reg_get_set, <- app_assoc. reflexivity.
        -- rewrite <- app_assoc. cbn [app].
           apply (well_formed_drop name pre (DoOnce u name (User i)) (x :: r')).
           split; assumption.
        -- cbn in Hn. lia.
Qed.

Lemma emit_spec :
  forall name (args : Args) e ls,
    reg_get (registry e) name = Some ls ->
    well_formed name ls ->
    emit name args e
    = inr (Nat.ltb 0 (List.length (visited ls)),
           mkEmitter (reg_set (registry e) name (kept ls)) (next_uid e)
                     (rev (map (fun i => (i, args)) (visited ls)) ++ heard e)).
Proof.
  intros name args e ls Hg Hwf. unfold emit. rewrite Hg.
  pose proof (forEach_spec name args (List.length ls) [] ls 0%nat e Hg Hwf
                (le_n _)) as H.
  cbn [List.length app Nat.add] in H. rewrite H. reflexivity.
Qed.

(** X12.  One [emit] over listeners that are [doOnce] closures or plain
    functions: a plain function is called and stays; a [doOnce] closure is
    called and removed, and the listener registered right after it, whatever
    it is, is passed over by this [emit] and stays registered.  [emit]
    returns whether it called anything. *)
Theorem X12_emit_passes_over_after_once :
  forall name (args : Args) e ls,
    reg_get (registry e) name = Some ls ->
    well_formed name ls ->
    emit name args e
    = inr (Nat.ltb 0 (List.length (visited ls)),
           mkEmitter (reg_set (registry e) name (kept ls)) (next_uid e)
                     (rev (map (fun i => (i, args)) (visited ls)) ++ heard e)).
Proof.
  intros name args e ls Hg Hwf. apply emit_spec; assumption.
Qed.

Lemma visited_users : forall ids, visited (map User ids) = ids.
Proof. induction ids as [|i r IH]; cbn; [reflexivity | f_equal; exact IH]. Qed.

Lemma kept_users : forall ids, kept (map User ids) = map User ids.
Proof. induction ids as [|i r IH]; cbn; [reflexivity | f_equal; exact IH]. Qed.

Lemma well_formed_users : forall name ids, well_formed name (map User ids).
Proof.
  intros name ids. split.
  - induction ids; cbn; [constructor | assumption].
  - induction ids; cbn; constructor; [exact I | assumption].
Qed.

(** X13.  When only plain functions are registered for an event, [emit]
    calls every one of them, in the order of registration and with the
    arguments given, leaves the emitter otherwise as it was, and returns
    [true] exactly when there is at least one.  For an event nobody ever
    registered for it returns [false] and does nothing, unless the name is
    one plain objects inherit ([toString], [constructor], ...): then it
    throws. *)
Theorem X13_emit_plain :
  forall name (args : Args) e,
    (forall ids,
        reg_get (registry e) name = Some (map User ids) ->
        emit name args e
        = inr (negb (Nat.eqb (List.length ids) 0),
               mkEmitter (registry e) (next_uid e)
                         (rev (map (fun i => (i, args)) ids) ++ heard e)))
    /\ (reg_get (registry e) name = None ->
        emit name args e
        = if inherited name
          then inl (TypeError "forEach is not a function")
          else inr (false, e)).
Proof.
  intros name args e. split.
  - intros ids Hg.
    rewrite (emit_spec name args e (map User ids) Hg (well_formed_users name ids)).
    rewrite visited_users, kept_users, (reg_set_same _ _ _ Hg).
    destruct ids; reflexivity.
  - intros Hg. unfold emit. rewrite Hg. reflexivity.
Qed.

Lemma remove_first_absent :
  forall l ls, existsb (fun x => same x l) ls = false -> remove_first l ls = ls.
Proof.
  induction ls as [|x r IH]; intros H; cbn in *; [reflexivity|].
  apply Bool.orb_false_iff in H. destruct H as [H1 H2].
  rewrite H1. f_equal. apply IH, H2.
Qed.

Lemma remove_first_app_absent :
  forall l ls,
    same l l = true ->
    existsb (fun x => same x l) ls = false ->
    remove_first l (ls ++ [l]) = ls.
Proof.
  induction ls as [|x r IH]; intros Hl H; cbn in *.
  - rewrite Hl. reflexivity.
  - apply Bool.orb_false_iff in H. destruct H as [H1 H2].
    rewrite H1. f_equal. apply IH; assumption.
Qed.

Lemma remove_first_length :
  forall l ls,
    existsb (fun x => same x l) ls = true ->
    S (List.length (remove_first l ls)) = List.length ls.
Proof.
  induction ls as [|x r IH]; intros H; cbn in *; [discriminate|].
  destruct (same x l); [reflexivity|]. cbn in *. f_equal. apply IH, H.
Qed.

Lemma same_refl : forall l, same l l = true.
Proof. intros [i|u n l]; cbn; apply Nat.eqb_refl. Qed.


Lemma kept_props :
  forall (P : Listener -> Prop) n ls,
    (List.length ls <= n)%nat ->
    (forall u, In u (uids (kept ls)) -> In u (uids ls))
    /\ (NoDup (uids ls) -> NoDup (uids (kept ls)))
    /\ (Forall P ls -> Forall P (kept ls)).
Proof.
  intros P. induction n as [|n IH]; intros ls Hn.
  - destruct ls; [|cbn in Hn; lia]. cbn. repeat split; auto.
  - destruct ls as [|[i|u nm inner] r]; [cbn; repeat split; auto | |].
    + destruct (IH r) as (A & B & C); [cbn in Hn; lia|].
      cbn. split; [exact A|]. split; [exact B|].
      intros H. inversion H; subst. constructor; auto.
    + destruct r as [|x r']; [cbn; repeat split; try constructor; contradiction|].
      destruct (IH r') as (A & B & C); [cbn in Hn; lia|].
      cbn [kept]. split; [|split].
      * intros v Hv. destruct x as [j|v0 nm0 in0]; cbn in *.
        -- right. apply A, Hv.
        -- destruct Hv as [->|Hv]; [right; left; reflexivity|].
           right. right. apply A, Hv.
      * intros H. cbn in H. inversion H as [|? ? Hu Hr]; subst.
        destruct x as [j|v0 nm0 in0]; cbn in *.
        -- apply B, Hr.
        -- inversion Hr as [|? ? Hv Hr']; subst.
           constructor; [|apply B, Hr'].
           intros Hin. apply Hv. apply A, Hin.
      * intros H. inversion H as [|? ? _ Hr]; subst.
        inversion Hr; subst. constructor; auto.
Qed.

Lemma remove_first_props :
  forall (P : Listener -> Prop) l ls,
    (forall u, In u (uids (remove_first l ls)) -> In u (uids ls))
    /\ (NoDup (uids ls) -> NoDup (uids (remove_first l ls)))
    /\ (Forall P ls -> Forall P (remove_first l ls)).
Proof.
  intros P l. induction ls as [|x r (A & B & C)]; [cbn; repeat split; auto|].
  cbn [remove_first]. destruct (same x l).
  - split; [|split].
    + intros u Hu. destruct x; cbn; [exact Hu | right; exact Hu].
    + intros H. destruct x; cbn in H; [exact H|]. inversion H; assumption.
    + intros H. inversion H; assumption.
  - split; [|split].
    + intros u Hu. destruct x; cbn in *; [apply A, Hu|].
      destruct Hu as [->|Hu]; [left; reflexivity | right; apply A, Hu].
    + intros H. destruct x; cbn in *; [apply B, H|].
      inversion H as [|? ? Hu Hr]; subst. constructor; [|apply B, Hr].
      intros Hin. apply Hu, A, Hin.
    + intros H. inversion H; subst. constructor; auto.
Qed.

Lemma emitter_failed :
  forall (ops : list (EmitterOp Args)) err,
    fold_left emitter_step ops (inl err) = inl err.
Proof. induction ops as [|op ops IH]; intros err; cbn; [reflexivity | apply IH]. Qed.

(** What every emitter built through its methods satisfies. *)
Lemma built_invariant :
  forall (ops : list (EmitterOp Args)) e e',
    (forall name ls,
        reg_get (registry e) name = Some ls ->
        well_formed name ls
        /\ Forall (fun u => (u < next_uid e)%nat) (uids ls)) ->
    fold_left emitter_step ops (inr e) = inr e' ->
    forall name ls,
      reg_get (registry e') name = Some ls ->
      well_formed name ls
      /\ Forall (fun u => (u < next_uid e')%nat) (uids ls).
Proof.
  induction ops as [|op ops IH]; intros e e' He Hrun.
  { cbn in Hrun. injection Hrun as <-. exact He. }
  cbn [fold_left] in Hrun.
  destruct (emitter_step (inr e) op) as [err|e1] eqn:Estep;
    [rewrite emitter_failed in Hrun; discriminate|].
  apply (IH e1 e'); [|exact Hrun]. clear IH Hrun e'.
  assert (Hlift : forall (e' : Emitter Args) name0 v,
             next_uid e' = next_uid e \/ next_uid e' = S (next_uid e) ->
             registry e' = reg_set (registry e) name0 v ->
             (well_formed name0 v
              /\ Forall (fun u => (u < next_uid e')%nat) (uids v)) ->
             forall name ls,
               reg_get (registry e') name = Some ls ->
               well_formed name ls
               /\ Forall (fun u => (u < next_uid e')%nat) (uids ls)).
  { intros e' name0 v Hn Hr Hv name ls Hg. rewrite Hr in Hg.
    destruct (String.eqb name0 name) eqn:E.
    - apply String.eqb_eq in E. subst name0. rewrite reg_get_set in Hg.
      injection Hg as <-. exact Hv.
    - apply String.eqb_neq in E.
      rewrite reg_get_set_other in Hg by congruence.
      destruct (He name ls Hg) as [W F]. split; [exact W|].
      eapply Forall_impl; [|exact F]. cbn. intros; lia. }
  assert (Hold : forall name,
             well_formed name (match reg_get (registry e) name with
                               | Some a => a | None => [] end)
             /\ Forall (fun u => (u < next_uid e)%nat)
                       (uids (match reg_get (registry e) name with
                              | Some a => a | None => [] end))).
  { intros name. destruct (reg_get (registry e) name) as [a|] eqn:Hg.
    - apply (He name a Hg).
    - split; [split; constructor | constructor]. }
  destruct op as [name id|name id|name id|name args]; cbn [emitter_step] in Estep.
  - assert (E1 : e1 = mkEmitter
                        (reg_set (registry e) name
                           (match reg_get (registry e) name with
                            | Some a => a | None => [] end ++ [User id]))
                        (next_uid e) (heard e)).
    { unfold on in Estep. destruct (reg_get (registry e) name);
        [|destruct (inherited name); [discriminate|]];
        injection Estep as <-; reflexivity. }
    subst e1.
    eapply Hlift; [left; reflexivity | reflexivity |].
    destruct (Hold name) as [[Hnd Hall] F]. cbn [next_uid].
    split; [split|].
    + rewrite uids_app. cbn. rewrite app_nil_r. exact Hnd.
    + apply Forall_app. split; [exact Hall | constructor; [exact I | constructor]].
    + rewrite uids_app. cbn. rewrite app_nil_r. exact F.
  - assert (E1 : e1 = mkEmitter
                        (reg_set (registry e) name
                           (match reg_get (registry e) name with
                            | Some a => a | None => [] end
                            ++ [DoOnce (next_uid e) name (User id)]))
                        (S (next_uid e)) (heard e)).
    { unfold once, on in Estep. cbn [registry next_uid heard] in Estep.
      destruct (reg_get (registry e) name);
        [|destruct (inherited name); [discriminate|]];
        injection Estep as <-; reflexivity. }
    subst e1.
    eapply Hlift; [right; reflexivity | reflexivity |].
    destruct (Hold name) as [[Hnd Hall] F]. cbn [next_uid].
    split; [split|].
    + rewrite uids_app. cbn.
      apply NoDup_app; [exact Hnd | constructor; [intros [] | constructor] |].
      intros u Hu [<-|[]]. rewrite Forall_forall in F. specialize (F _ Hu). lia.
    + apply Forall_app. split; [exact Hall|].
      constructor; [reflexivity | constructor].
    + rewrite uids_app. apply Forall_app. split.
      * eapply Forall_impl; [|exact F]. cbn. intros; lia.
      * cbn. constructor; [lia | constructor].
  - injection Estep as <-. unfold removeListener.
    destruct (reg_get (registry e) name) as [a|] eqn:Hg; [|exact He].
    apply (Hlift (mkEmitter (reg_set (registry e) name
                                     (remove_first (User id) a))
                            (next_uid e) (heard e))
                 name _ (or_introl eq_refl) eq_refl).
    destruct (He name a Hg) as [[Hnd Hall] F]. cbn [next_uid].
    destruct (remove_first_props (once_for name) (User id) a) as (A & B & C).
    split; [split; [apply B, Hnd | apply C, Hall]|].
    rewrite Forall_forall in *. intros u Hu. apply F, A, Hu.
  - destruct (reg_get (registry e) name) as [a|] eqn:Hg.
    + destruct (He name a Hg) as [W F].
      rewrite (emit_spec name args e a Hg W) in Estep.
      injection Estep as <-.
      apply (Hlift (mkEmitter (reg_set (registry e) name (kept a)) (next_uid e)
                              (rev (map (fun i => (i, args)) (visited a))
                               ++ heard e))
                   name _ (or_introl eq_refl) eq_refl). cbn [next_uid].
      destruct W as [Hnd Hall].
      destruct (kept_props (once_for name) (List.length a) a (le_n _))
        as (A & B & C).
      split; [split; [apply B, Hnd | apply C, Hall]|].
      rewrite Forall_forall in *. intros u Hu. apply F, A, Hu.
    + unfold emit in Estep. rewrite Hg in Estep.
      destruct (inherited name); [discriminate|].
      injection Estep as <-. exact He.
Qed.

(** X15.  On every emitter built from [new EventEmitter()] through [on],
    [once], [removeListener] and [emit] with functions of the caller, none of
    which threw, each [emit] visits the listeners as X12 says: the closures
    of [once] are called once and then gone, and each of them costs the
    listener registered after it one event. *)
Theorem X15_emit_on_built_emitters :
  forall (ops : list (EmitterOp Args)) e name (args : Args) ls,
    fold_left emitter_step ops (inr create) = inr e ->
    reg_get (registry e) name = Some ls ->
    well_formed name ls
    /\ emit name args e
       = inr (Nat.ltb 0 (List.length (visited ls)),
              mkEmitter (reg_set (registry e) name (kept ls)) (next_uid e)
                        (rev (map (fun i => (i, args)) (visited ls))
                         ++ heard e)).
Proof.
  intros ops e name args ls Hrun Hg.
  destruct (built_invariant ops create e) with (name := name) (ls := ls)
    as [W _]; [intros n l H; discriminate H | exact Hrun | exact Hg |].
  split; [exact W | apply emit_spec; assumption].
Qed.

End EmitterProps.

Lemma X12_witness :
  EventEmitter.emit "change" 7%nat
    (EventEmitter.mkEmitter
       [("change"%string,
         [EventEmitter.DoOnce 0 "change" (EventEmitter.User 1);
          EventEmitter.User 2])] 1%nat [])
  = inr (true,
         EventEmitter.mkEmitter [("change"%string, [EventEmitter.User 2])] 1%nat
                                [(1%nat, 7%nat)]).
Proof.
  apply (X12_emit_passes_over_after_once nat "change" 7%nat
           (EventEmitter.mkEmitter
              [("change"%string,
                [EventEmitter.DoOnce 0 "change" (EventEmitter.User 1);
                 EventEmitter.User 2])] 1%nat [])
           [EventEmitter.DoOnce 0 "change" (EventEmitter.User 1);
            EventEmitter.User 2]).
  - reflexivity.
  - split.
    + cbn. constructor; [intros [] | constructor].
    + repeat constructor.
Defined.

(** * [omit], [groupBy], [sumBy] and [classnames] *)

Section ObjectProps.

Variable V : Type.

Implicit Types o : list (string * V).

Lemma obj_get_set :
  forall o k (v : V), obj_get (obj_set o k v) k = Some v.
Proof.
  induction o as [|[k0 v0] o IH]; intros k v; cbn.
  - rewrite String.eqb_refl. reflexivity.
  - destruct (String.eqb k0 k) eqn:E; cbn; rewrite E; [reflexivity | apply IH].
Qed.

Lemma obj_get_set_other :
  forall o k k' (v : V),
    k' <> k -> obj_get (obj_set o k v) k' = obj_get o k'.
Proof.
  induction o as [|[k0 v0] o IH]; intros k k' v Hne; cbn.
  - destruct (String.eqb k k') eqn:E; [|reflexivity].
    apply String.eqb_eq in E. congruence.
  - destruct (String.eqb k0 k) eqn:E; cbn.
    + apply String.eqb_eq in E. subst k0.
      destruct (String.eqb k k') eqn:E'; [|reflexivity].
      apply String.eqb_eq in E'. congruence.
    + destruct (String.eqb k0 k'); [reflexivity | apply IH, Hne].
Qed.

Lemma obj_get_key :
  forall o k, obj_get o k = None <-> existsb (String.eqb k) (map fst o) = false.
Proof.
  induction o as [|[k0 v0] o IH]; intros k; cbn; [tauto|].
  rewrite (String.eqb_sym k k0).
  destruct (String.eqb k0 k); cbn; [split; discriminate | apply IH].
Qed.

Lemma omit_fold_get :
  forall (obj : list (string * V)) ks acc k,
    (forall key, In key ks -> obj_get obj key <> None) ->
    obj_get
      (fold_left (fun acc key => match obj_get obj key with
                                 | Some v => obj_set acc key v
                                 | None => acc
                                 end) ks acc) k
    = if existsb (String.eqb k) ks then obj_get obj k else obj_get acc k.
Proof.
  intros obj. induction ks as [|key r IH]; intros acc k Hk; cbn; [reflexivity|].
  destruct (obj_get obj key) as [v|] eqn:Ev;
    [|exfalso; apply (Hk key); [left; reflexivity | exact Ev]].
  rewrite IH by (intros key' Hin; apply Hk; right; exact Hin).
  destruct (String.eqb k key) eqn:E; cbn.
  - apply String.eqb_eq in E. subst key.
    rewrite obj_get_set, Ev. destruct (existsb _ r); reflexivity.
  - apply String.eqb_neq in E. rewrite obj_get_set_other by exact E.
    reflexivity.
Qed.

Lemma omit_get :
  forall (obj : list (string * V)) arr k,
    obj_get (omit obj arr) k
    = if includes arr k then None else obj_get obj k.
Proof.
  intros obj arr k. unfold omit. rewrite omit_fold_get.
  - destruct (includes arr k) eqn:Ei.
    + assert (E : existsb (String.eqb k)
                    (filter (fun k0 => negb (includes arr k0)) (map fst obj))
                  = false).
      { apply Bool.not_true_is_false. intros H.
        apply existsb_exists in H. destruct H as [x [Hin Hx]].
        apply String.eqb_eq in Hx. subst x.
        apply filter_In in Hin. destruct Hin as [_ Hp].
        rewrite Ei in Hp. discriminate. }
      rewrite E. reflexivity.
    + destruct (existsb (String.eqb k) (filter _ (map fst obj))) eqn:E;
        [reflexivity|].
      cbn. symmetry. apply obj_get_key.
      apply Bool.not_true_is_false. intros H.
      apply existsb_exists in H. destruct H as [x [Hin Hx]].
      apply String.eqb_eq in Hx. subst x.
      assert (Hf : existsb (String.eqb k)
                     (filter (fun k0 => negb (includes arr k0)) (map fst obj))
                   = true).
      { apply existsb_exists. exists k. split; [|apply String.eqb_refl].
        apply filter_In. split; [exact Hin|]. rewrite Ei. reflexivity. }
      rewrite Hf in E. discriminate.
  - intros key Hin. apply filter_In in Hin. destruct Hin as [Hin _].
    intros Hn. apply obj_get_key in Hn.
    assert (Ht : existsb (String.eqb key) (map fst obj) = true).
    { apply existsb_exists. exists key. split; [exact Hin | apply String.eqb_refl]. }
    rewrite Ht in Hn. discriminate.
Qed.

(** X16.  [omit(obj, arr)] has exactly the properties of [obj] whose names
    are not in [arr], each with the value it has in [obj]; omitting in two
    steps is omitting both lists at once, and what is omitted stays
    omitted. *)
Theorem X16_omit_lookup :
  forall (obj : list (string * V)) (arr arr' : list string) (k : string),
    obj_get (omit obj arr) k
    = (if includes arr k then None else obj_get obj k)
    /\ obj_get (omit (omit obj arr) arr') k
       = obj_get (omit obj (arr ++ arr')) k.
Proof.
  intros obj arr arr' k. split; [apply omit_get|].
  rewrite !omit_get. unfold includes. rewrite existsb_app.
  destruct (existsb (String.eqb k) arr), (existsb (String.eqb k) arr');
    reflexivity.
Qed.

End ObjectProps.

Section GroupByProps.

Variable X : Type.
Variable key : X -> string.

Lemma groupBy_failed :
  forall xs e, fold_left (groupBy_step key) xs (inl e) = inl e.
Proof. induction xs as [|x r IH]; intros e; cbn; [reflexivity | apply IH]. Qed.

Lemma groupBy_throws :
  forall xs o,
    (forall g, inherited g = true -> obj_get o g = None) ->
    existsb (fun x => inherited (key x)) xs = true ->
    exists e, fold_left (groupBy_step key) xs (inr o) = inl e.
Proof.
  induction xs as [|x r IH]; intros o Ho H;
    cbn [fold_left existsb groupBy_step] in *; [discriminate|].
  destruct (inherited (key x)) eqn:Ei.
  - rewrite (Ho _ Ei). eexists. apply groupBy_failed.
  - cbn [orb] in H.
    assert (Hne : forall g, inherited g = true -> g <> key x).
    { intros g Hg ->. rewrite Hg in Ei. discriminate. }
    destruct (obj_get o (key x)) as [grp|]; apply IH; try exact H;
      intros g Hg; rewrite obj_get_set_other by (apply Hne, Hg); apply Ho, Hg.
Qed.

Lemma groupBy_groups :
  forall xs o,
    existsb (fun x => inherited (key x)) xs = false ->
    exists o',
      fold_left (groupBy_step key) xs (inr o) = inr o'
      /\ forall g,
          obj_get o' g
          = match filter (fun x => String.eqb (key x) g) xs with
            | [] => obj_get o g
            | l => Some (match obj_get o g with Some a => a | None => [] end
                         ++ l)
            end.
Proof.
  induction xs as [|x r IH]; intros o H;
    cbn [fold_left existsb filter groupBy_step] in *.
  - exists o. split; reflexivity.
  - apply Bool.orb_false_iff in H. destruct H as [Hx Hr]. rewrite Hx.
    assert (Hstep : forall grp,
               exists o',
                 fold_left (groupBy_step key) r
                           (inr (obj_set o (key x) (grp ++ [x]))) = inr o'
                 /\ forall g,
                     obj_get o' g
                     = match (if String.eqb (key x) g
                              then x :: filter (fun x0 => String.eqb (key x0) g) r
                              else filter (fun x0 => String.eqb (key x0) g) r)
                       with
                       | [] => obj_get o g
                       | l => Some (match (if String.eqb (key x) g
                                           then Some grp else obj_get o g)
                                    with Some a => a | None => [] end ++ l)
                       end).
    { intros grp.
      destruct (IH (obj_set o (key x) (grp ++ [x])) Hr) as (o' & E & G).
      exists o'. split; [exact E|]. intros g. rewrite G.
      destruct (String.eqb (key x) g) eqn:Eg.
      - apply String.eqb_eq in Eg. subst g. rewrite obj_get_set.
        destruct (filter _ r); [reflexivity|].
        rewrite <- app_assoc. reflexivity.
      - apply String.eqb_neq in Eg.
        rewrite obj_get_set_other by congruence. reflexivity. }
    destruct (obj_get o (key x)) as [grp|] eqn:Eo.
    + destruct (Hstep grp) as (o' & E & G). exists o'. split; [exact E|].
      intros g. rewrite G.
      destruct (String.eqb (key x) g) eqn:Eg; [|reflexivity].
      apply String.eqb_eq in Eg. subst g. rewrite Eo. reflexivity.
    + destruct (Hstep []) as (o' & E & G). exists o'. split; [exact E|].
      intros g. rewrite G.
      destruct (String.eqb (key x) g) eqn:Eg; [|reflexivity].
      apply String.eqb_eq in Eg. subst g. rewrite Eo. reflexivity.
Qed.

(** X17.  [groupBy(xs, key)] throws exactly when the key of some element is a
    name plain objects inherit ([constructor], [toString], [__proto__],
    ...).  Otherwise the group under a name is the list of the elements with
    that key, in their order in [xs], and a name no element has as its key
    has no group. *)
Theorem X17_groupBy_groups :
  forall (xs : list X),
    if existsb (fun x => inherited (key x)) xs
    then exists e, groupBy xs key = inl e
    else exists o,
        groupBy xs key = inr o
        /\ forall g,
            obj_get o g
            = match filter (fun x => String.eqb (key x) g) xs with
              | [] => None
              | l => Some l
              end.
Proof.
  intros xs. destruct (existsb _ xs) eqn:E.
  - apply groupBy_throws; [reflexivity | exact E].
  - destruct (groupBy_groups xs [] E) as (o & Eo & G).
    exists o. split; [exact Eo|]. intros g. rewrite G. reflexivity.
Qed.

Lemma sum_fold :
  forall (l : list Z) a, fold_left (fun acc val => acc + val) l a
                         = a + fold_right Z.add 0 l.
Proof.
  induction l as [|z l IH]; intros a; cbn; [lia|]. rewrite IH. lia.
Qed.


End GroupByProps.

Lemma join_strings :
  forall sep (l : list string),
    join sep (map JStr l) = String.concat sep l.
Proof.
  intros sep l. unfold join. rewrite map_map. cbn.
  rewrite map_id. reflexivity.
Qed.


(** * Instances *)

Lemma X1_witness :
  (forall id, timerId (@init string unit (list string)) = Some id ->
              has_timer id (timers (@init string unit (list string))) = true)
  /\ (forall now this args,
         pending (snd (debounced cfg_100 now this args init)) = true).
Proof.
  exact (X1_pending_is_scheduled string unit (list string) cfg_100 init
           (reach_init cfg_100)).
Defined.

Lemma X2_witness :
  invoked (exec cfg_100 [EvFire 100 1; EvFlush 120]
                (cancel cfg_100 (after_calls cfg_100 [call_at 0 "A"] init)))
  = invoked (after_calls cfg_100 [call_at 0 "A"] init)
  /\ invoked (exec cfg_100 [EvFire 100 1; EvFlush 120]
                   (snd (flush cfg_100 10
                           (after_calls cfg_100 [call_at 0 "A"] init))))
     = invoked (snd (flush cfg_100 10
                       (after_calls cfg_100 [call_at 0 "A"] init))).
Proof.
  apply (X2_silent_until_next_call string unit (list string) cfg_100
           (after_calls cfg_100 [call_at 0 "A"] init)
           [EvFire 100 1; EvFlush 120] 10).
  - exact (reach_call cfg_100 0 None ["A"%string] init (reach_init cfg_100)).
  - reflexivity.
Defined.

Lemma X4_witness :
  tidy (exec cfg_100
             [EvCall 0 None ["A"%string]; EvCall 10 None ["B"%string];
              EvFire 100 1; EvCancel]
             init).
Proof.
  apply (X4_single_wakeup_without_flush string unit (list string) cfg_100).
  - right. reflexivity.
  - reflexivity.
Defined.

Lemma X13_witness :
  EventEmitter.emit "change" 7%nat
    (EventEmitter.mkEmitter [("change"%string, [EventEmitter.User 2])] 0%nat [])
  = inr (true,
         EventEmitter.mkEmitter [("change"%string, [EventEmitter.User 2])] 0%nat
                                [(2%nat, 7%nat)]).
Proof.
  exact (proj1 (X13_emit_plain nat "change" 7%nat
                  (EventEmitter.mkEmitter
                     [("change"%string, [EventEmitter.User 2])] 0%nat []))
               [2%nat] eq_refl).
Defined.


Lemma X15_witness :
  EventEmitter.well_formed "change"
    [EventEmitter.DoOnce 0 "change" (EventEmitter.User 1); EventEmitter.User 2]
  /\ EventEmitter.emit "change" 7%nat
       (EventEmitter.mkEmitter
          [("change"%string,
            [EventEmitter.DoOnce 0 "change" (EventEmitter.User 1);
             EventEmitter.User 2])] 1%nat [])
     = inr (true,
            EventEmitter.mkEmitter [("change"%string, [EventEmitter.User 2])]
                                   1%nat [(1%nat, 7%nat)]).
Proof.
  exact (X15_emit_on_built_emitters nat [OpOnce "change" 1; OpOn "change" 2]
           (EventEmitter.mkEmitter
              [("change"%string,
                [EventEmitter.DoOnce 0 "change" (EventEmitter.User 1);
                 EventEmitter.User 2])] 1%nat [])
           "change" 7%nat
           [EventEmitter.DoOnce 0 "change" (EventEmitter.User 1);
            EventEmitter.User 2]
           eq_refl eq_refl).
Defined.

